(** * sum-like-it: the extraction and merge module [src/lib/youtube-likes.ts]

    A shallow embedding of the TypeScript module and the properties of its
    numeric-text parser, identifier extractors, like-count locator, page
    analyzer and aggregator.

    Modelling conventions.
    - A JavaScript [number] is an IEEE 754 binary64 value, taken from
      [SpecFloat] with [prec = 53] and [emax = 1024].
    - A JavaScript string is a [string] whose characters are the code units
      below 256; white space, case mapping and [length] are JavaScript's on
      these code units.
    - [try]/[catch] is an explicit exception type [Exc]; the globals the code
      reads off [window], the clock and the platform's [URL] constructor are
      explicit inputs.
    - Calls to [console.log] have no influence on any result and are left
      out. *)

From Stdlib Require Import ZArith List Bool Ascii String Lia PeanoNat.
From Stdlib Require Import Floats.SpecFloat Numbers.DecimalString.
Import ListNotations.

Local Open Scope string_scope.
Local Open Scope list_scope.

(** ** Characters and strings *)

Module Str.

Definition code (c : ascii) : nat := nat_of_ascii c.

(** [\d] *)
Definition isDigit (c : ascii) : bool :=
  (48 <=? code c)%nat && (code c <=? 57)%nat.

(** [\w], that is [A-Za-z0-9_] *)
Definition isWord (c : ascii) : bool :=
  isDigit c
  || ((65 <=? code c)%nat && (code c <=? 90)%nat)
  || ((97 <=? code c)%nat && (code c <=? 122)%nat)
  || (code c =? 95)%nat.

(** White space and line terminators, as stripped by
    [String.prototype.trim]: tab to carriage return, the space and the
    no-break space. *)
Definition isSpace (c : ascii) : bool :=
  ((9 <=? code c)%nat && (code c <=? 13)%nat) || (code c =? 32)%nat
  || (code c =? 160)%nat.

(** The letters with a lower-case form: [A] to [Z], and the accented
    capitals from 192 to 222 without the multiplication sign 215. *)
Definition isUpper (c : ascii) : bool :=
  ((65 <=? code c)%nat && (code c <=? 90)%nat)
  || ((192 <=? code c)%nat && (code c <=? 222)%nat
      && negb (code c =? 215)%nat).

Definition lowerChar (c : ascii) : ascii :=
  if isUpper c then ascii_of_nat (code c + 32) else c.

Fixpoint toLowerCase (s : string) : string :=
  match s with
  | EmptyString => EmptyString
  | String c r => String (lowerChar c) (toLowerCase r)
  end.

Fixpoint filter (p : ascii -> bool) (s : string) : string :=
  match s with
  | EmptyString => EmptyString
  | String c r => if p c then String c (filter p r) else filter p r
  end.

(** The longest prefix whose characters satisfy [p], and the rest. *)
Fixpoint span (p : ascii -> bool) (s : string) : string * string :=
  match s with
  | EmptyString => (EmptyString, EmptyString)
  | String c r =>
      if p c then let (a, b) := span p r in (String c a, b)
      else (EmptyString, s)
  end.

Fixpoint dropWhile (p : ascii -> bool) (s : string) : string :=
  match s with
  | EmptyString => EmptyString
  | String c r => if p c then dropWhile p r else s
  end.

Fixpoint rev_append (s acc : string) : string :=
  match s with
  | EmptyString => acc
  | String c r => rev_append r (String c acc)
  end.

Definition rev (s : string) : string := rev_append s EmptyString.

Definition trimStart (s : string) : string := dropWhile isSpace s.
Definition trim (s : string) : string :=
  rev (dropWhile isSpace (rev (dropWhile isSpace s))).

(** [startsWith p s = Some r] when [s = p ++ r]. *)
Fixpoint startsWith (p s : string) : option string :=
  match p, s with
  | EmptyString, _ => Some s
  | String a p', String b s' =>
      if Ascii.eqb a b then startsWith p' s' else None
  | String _ _, EmptyString => None
  end.

(** [String.prototype.includes] *)
Fixpoint includes (s sub : string) : bool :=
  match startsWith sub s with
  | Some _ => true
  | None =>
      match s with
      | EmptyString => false
      | String _ r => includes r sub
      end
  end.

(** [String.prototype.replace] with a string pattern: the first occurrence
    only.  The replacements used by the module contain no [$]. *)
Fixpoint replace (s pat by_ : string) : string :=
  match startsWith pat s with
  | Some r => by_ ++ r
  | None =>
      match s with
      | EmptyString => EmptyString
      | String c r => String c (replace r pat by_)
      end
  end.

Definition isEmpty (s : string) : bool :=
  match s with EmptyString => true | _ => false end.

(** Value of a string of decimal digits. *)
Fixpoint digitsValue (acc : Z) (s : string) : Z :=
  match s with
  | EmptyString => acc
  | String c r => digitsValue (10 * acc + Z.of_nat (code c - 48)) r
  end.

End Str.

(** ** Numbers *)

Module Num.

Definition number := spec_float.

Definition prec : Z := 53.
Definition emax : Z := 1024.

Definition NaN : number := S754_nan.
Definition zero : number := S754_zero false.

(** The number nearest to an integer. *)
Definition ofZ (z : Z) : number := binary_normalize prec emax z 0 false.

Definition mul (x y : number) : number := SFmul prec emax x y.
Definition add (x y : number) : number := SFadd prec emax x y.
Definition ltb (x y : number) : bool := SFltb x y.

Definition isNaN (x : number) : bool :=
  match x with S754_nan => true | _ => false end.

(** ToBoolean on a number: [0], [-0] and [NaN] are falsy. *)
Definition truthy (x : number) : bool :=
  match x with S754_zero _ | S754_nan => false | _ => true end.

(** The number nearest to [(-1)^s * m * 10^e], for a digit string of value
    [m]. *)
Definition ofDecimal (s : bool) (m : Z) (e : Z) : number :=
  match m with
  | Zpos p =>
      match e with
      | Zneg k => SFdiv prec emax (S754_finite s p 0)
                    (S754_finite false (Pos.pow 10 k) 0)
      | _ => binary_normalize prec emax
               (cond_Zopp s (Zpos p * 10 ^ e)) 0 s
      end
  | _ => S754_zero s
  end.

(** [Math.round]: the nearest integer, ties towards plus infinity. *)
Definition round (x : number) : number :=
  match x with
  | S754_finite s m (Zneg k) =>
      let v := cond_Zopp s (Zpos m) in
      let n := Z.div (2 * v + 2 ^ Zpos k) (2 ^ (Zpos k + 1)) in
      binary_normalize prec emax n 0 s
  | _ => x
  end.

(** The integer a number stands for, when it is finite and integral. *)
Definition toZ (x : number) : option Z :=
  match x with
  | S754_zero _ => Some 0%Z
  | S754_finite s m (Zneg k) =>
      if (Zpos m mod 2 ^ Zpos k =? 0)%Z
      then Some (cond_Zopp s (Zpos m / 2 ^ Zpos k))
      else None
  | S754_finite s m e => Some (cond_Zopp s (Zpos m * 2 ^ e))
  | _ => None
  end.

Definition splitSign (s : string) : bool * string :=
  match s with
  | String "+" r => (false, r)
  | String "-" r => (true, r)
  | _ => (false, s)
  end.

(** The exponent part [e|E (+|-)? digits] at the head of [s], zero when
    there is none. *)
Definition exponentPart (s : string) : Z :=
  match s with
  | String c r =>
      if Ascii.eqb c "e" || Ascii.eqb c "E" then
        let (neg, r') := splitSign r in
        let (ds, _) := Str.span Str.isDigit r' in
        if Str.isEmpty ds then 0%Z
        else cond_Zopp neg (Str.digitsValue 0 ds)
      else 0%Z
  | EmptyString => 0%Z
  end.

(** [parseFloat]: the longest prefix of the left-trimmed string that is a
    StrDecimalLiteral, [NaN] when there is none. *)
Definition parseFloat (str : string) : number :=
  let (neg, s1) := splitSign (Str.trimStart str) in
  match Str.startsWith "Infinity" s1 with
  | Some _ => S754_infinity neg
  | None =>
      let (ip, r1) := Str.span Str.isDigit s1 in
      let (fp, r2) :=
        match r1 with
        | String "." r => Str.span Str.isDigit r
        | _ => (EmptyString, r1)
        end in
      if Str.isEmpty ip && Str.isEmpty fp then NaN
      else
        ofDecimal neg (Str.digitsValue 0 (ip ++ fp))
          (exponentPart r2 - Z.of_nat (String.length fp))
  end.

(** [parseInt(str, 10)]: the leading decimal digits of the left-trimmed
    string after an optional sign, [NaN] when there is none. *)
Definition parseInt10 (str : string) : number :=
  let (neg, s1) := splitSign (Str.trimStart str) in
  let (ds, _) := Str.span Str.isDigit s1 in
  if Str.isEmpty ds then NaN
  else binary_normalize prec emax
         (cond_Zopp neg (Str.digitsValue 0 ds)) 0 neg.

End Num.

Import Num.

(** ** The numeric-text parser *)

Definition keepChar (c : ascii) : bool := Str.isWord c || Ascii.eqb c ".".

Definition scaled (cleanText suffix : string) (factor : Z) : number :=
  let num := parseFloat (Str.replace cleanText suffix "") in
  if isNaN num then zero else round (mul num (ofZ factor)).

Definition parseLikeCountText (text : string) : number :=
  let cleanText := Str.filter keepChar text in
  if Str.includes cleanText "K" then scaled cleanText "K" 1000
  else if Str.includes cleanText "M" then scaled cleanText "M" 1000000
  else if Str.includes cleanText "B" then scaled cleanText "B" 1000000000
  else
    let number := parseInt10 cleanText in
    if isNaN number then zero else number.

(** ** Exceptions *)

Inductive Exc (A : Type) : Type :=
| Return (a : A)
| Throw (message : string).

Arguments Return {A} a.
Arguments Throw {A} message.

Definition bindExc {A B : Type} (m : Exc A) (k : A -> Exc B) : Exc B :=
  match m with
  | Return a => k a
  | Throw msg => Throw msg
  end.

Notation "x <- m ;; k" := (bindExc m (fun x => k))
  (at level 61, m at next level, right associativity).

(** ** Identifier extractors *)

Definition newline : ascii := ascii_of_nat 10.

(** The class [[^&\n?#]] *)
Definition isIdChar (c : ascii) : bool :=
  negb (Ascii.eqb c "&" || Ascii.eqb c newline
        || Ascii.eqb c "?" || Ascii.eqb c "#").

(** The class [[^\/]] *)
Definition isSegmentChar (c : ascii) : bool := negb (Ascii.eqb c "/").

(** A literal prefix followed by the group [(cls+)], matched at the head of
    [s]; the group is greedy and nothing follows it in the pattern. *)
Definition matchGroupAfter (cls : ascii -> bool) (literal s : string)
  : option string :=
  match Str.startsWith literal s with
  | Some r =>
      let (g, _) := Str.span cls r in
      if Str.isEmpty g then None else Some g
  | None => None
  end.

(** [(?:youtube\.com\/watch\?v=|youtu\.be\/)([^&\n?#]+)] at the head of
    [s]. *)
Definition matchVideoAt (s : string) : option string :=
  match matchGroupAfter isIdChar "youtube.com/watch?v=" s with
  | Some id => Some id
  | None => matchGroupAfter isIdChar "youtu.be/" s
  end.

(** [url.match(...)]: the pattern is not anchored, the leftmost position
    where it matches wins. *)
Fixpoint extractVideoId (url : string) : option string :=
  match matchVideoAt url with
  | Some id => Some id
  | None =>
      match url with
      | EmptyString => None
      | String _ r => extractVideoId r
      end
  end.

Definition patterns : list string := ["/channel/"; "/c/"; "/@"].

(** The loop over [patterns], each anchored at the start of the path. *)
Fixpoint firstPattern (ps : list string) (pathname : string)
  : option string :=
  match ps with
  | [] => None
  | p :: ps' =>
      match matchGroupAfter isSegmentChar p pathname with
      | Some id => Some id
      | None => firstPattern ps' pathname
      end
  end.

(** ** Insertion-ordered maps *)

(** A JavaScript [Map] with string keys: entries in insertion order, [set]
    on a present key replaces the value where the key stands. *)
Module JSMap.

Definition t (V : Type) := list (string * V).

Fixpoint set {V} (m : t V) (k : string) (v : V) : t V :=
  match m with
  | [] => [(k, v)]
  | (k', v') :: m' =>
      if String.eqb k' k then (k', v) :: m' else (k', v') :: set m' k v
  end.

Fixpoint get {V} (m : t V) (k : string) : option V :=
  match m with
  | [] => None
  | (k', v') :: m' => if String.eqb k' k then Some v' else get m' k
  end.

(** [new Map(entries)] and the [for ... set] loop: both add the entries in
    order. *)
Definition setAll {V} (m : t V) (entries : list (string * V)) : t V :=
  fold_left (fun acc e => set acc (fst e) (snd e)) entries m.

Definition keys {V} (m : t V) : list string := map fst m.
Definition values {V} (m : t V) : list V := map snd m.

End JSMap.

(** ** JavaScript values of the state blobs

    The blobs on [window] are untyped object graphs.  Objects live in a heap
    and are referred to by address, so that a graph may share and may contain
    cycles. *)

Module JS.

Definition addr := nat.

Inductive value : Type :=
| VUndefined
| VNull
| VBool (b : bool)
| VNum (n : number)
| VStr (s : string)
| VRef (a : addr).

Inductive object : Type :=
| Props (fields : list (string * value))
| Elems (items : list value).

Definition heap := addr -> object.

Definition truthy (v : value) : bool :=
  match v with
  | VUndefined | VNull => false
  | VBool b => b
  | VNum n => Num.truthy n
  | VStr s => negb (Str.isEmpty s)
  | VRef _ => true
  end.

(** [a || b] *)
Definition logicalOr (a b : value) : value := if truthy a then a else b.

Definition indexKey (i : nat) : string :=
  NilEmpty.string_of_uint (Nat.to_uint i).

Fixpoint indexed (i : nat) (vs : list value) : list (string * value) :=
  match vs with
  | [] => []
  | v :: r => (indexKey i, v) :: indexed (S i) r
  end.

(** [Object.entries]: the fields of a plain object in their order, the
    items of an array under their indices. *)
Definition entries (o : object) : list (string * value) :=
  match o with
  | Props fs => fs
  | Elems vs => indexed 0 vs
  end.

(** [v?.key] for a named own property; a primitive has none of the names
    the module asks for. *)
Definition get (h : heap) (v : value) (key : string) : value :=
  match v with
  | VRef a =>
      match JSMap.get (entries (h a)) key with
      | Some x => x
      | None => VUndefined
      end
  | _ => VUndefined
  end.

(** [v?.[0]] *)
Definition at0 (h : heap) (v : value) : value :=
  match v with
  | VRef _ => get h v "0"
  | VStr (String c _) => VStr (String c EmptyString)
  | _ => VUndefined
  end.

(** [v?.k1?.k2 ...] *)
Definition path (h : heap) (v : value) (ks : list string) : value :=
  fold_left (get h) ks v.

(** The values a [for ... of] loop runs over; what is not iterable throws a
    [TypeError]. *)
Definition iterate (h : heap) (v : value) : Exc (list value) :=
  match v with
  | VRef a =>
      match h a with
      | Elems vs => Return vs
      | Props _ => Throw "contents is not iterable"
      end
  | VStr s =>
      Return (map (fun c => VStr (String c EmptyString))
                  (list_ascii_of_string s))
  | _ => Throw "contents is not iterable"
  end.

End JS.

Import JS.

(** The state the page has put on [window].  No value of [objects] is a
    function, so what the conversion of an object to a string gives is kept
    next to them: [toString w a] is its text, or the error it throws (a
    [TypeError] where the object at [a] has no usable [toString] or
    [valueOf], a [RangeError] where nested arrays exhaust the call stack). *)
Record Window : Type := mkWindow {
  objects : heap;
  toString : addr -> Exc string;
  ytInitialData : value;
  ytInitialPlayerResponse : value
}.

(** ** The page structure *)

Module DOM.

(** Tag and attribute names are kept in lower case, as an HTML document
    reports them to selectors. *)
#[warnings="-register-all"] Inductive node : Type :=
| Text (data : string)
| Element (tagName : string) (attributes : list (string * string))
          (childNodes : list node).

Fixpoint textContent (n : node) : string :=
  match n with
  | Text s => s
  | Element _ _ kids =>
      (fix all (ks : list node) : string :=
         match ks with
         | [] => EmptyString
         | k :: ks' => (textContent k ++ all ks')%string
         end) kids
  end.

Definition getAttribute (name : string) (n : node) : option string :=
  match n with
  | Text _ => None
  | Element _ attrs _ => JSMap.get attrs name
  end.

(** An element with its ancestors, the parent first. *)
Definition located : Type := node * list node.

(** The element [n] and the elements below it, in tree order. *)
Fixpoint elementsFrom (ancestors : list node) (n : node) : list located :=
  match n with
  | Text _ => []
  | Element _ _ kids =>
      (n, ancestors)
        :: (fix all (ks : list node) : list located :=
              match ks with
              | [] => []
              | k :: ks' => elementsFrom (n :: ancestors) k ++ all ks'
              end) kids
  end.

Definition descendants (e : located) : list located :=
  match elementsFrom (snd e) (fst e) with
  | [] => []
  | _ :: below => below
  end.

Definition parentElement (e : located) : option node :=
  match snd e with
  | [] => None
  | p :: _ => Some p
  end.

Inductive simple : Type :=
| Universal
| Tag (name : string)
| Id (value : string)
| AttrEq (name value : string)
| AttrHas (name part : string).

Definition matchesSimple (s : simple) (n : node) : bool :=
  match n with
  | Text _ => false
  | Element tag _ _ =>
      match s with
      | Universal => true
      | Tag t => String.eqb tag t
      | Id v =>
          match getAttribute "id" n with
          | Some x => String.eqb x v
          | None => false
          end
      | AttrEq a v =>
          match getAttribute a n with
          | Some x => String.eqb x v
          | None => false
          end
      | AttrHas a v =>
          match getAttribute a n with
          | Some x => negb (Str.isEmpty v) && Str.includes x v
          | None => false
          end
      end
  end.

(** The compound selectors still to be matched, innermost first, against
    the ancestors of an element, parent first. *)
Fixpoint matchesAbove (sels : list simple) (ancestors : list node) : bool :=
  match sels with
  | [] => true
  | s :: sels' =>
      (fix find (anc : list node) : bool :=
         match anc with
         | [] => false
         | a :: anc' =>
             if matchesSimple s a then matchesAbove sels' anc'
             else find anc'
         end) ancestors
  end.

(** A complex selector is a chain of compound selectors joined by the
    descendant combinator, written outermost first; a selector is a comma
    list of them. *)
Definition complex := list simple.
Definition selector := list complex.

Definition matchesComplex (c : complex) (e : located) : bool :=
  match List.rev c with
  | [] => false
  | s :: above => matchesSimple s (fst e) && matchesAbove above (snd e)
  end.

Definition matches (sel : selector) (e : located) : bool :=
  existsb (fun c => matchesComplex c e) sel.

Record Document : Type := mkDocument {
  title : string;
  documentElement : node
}.

Definition querySelectorAll (d : Document) (sel : selector) : list located :=
  List.filter (matches sel) (elementsFrom [] (documentElement d)).

Definition querySelectorAllIn (e : located) (sel : selector) : list located :=
  List.filter (matches sel) (descendants e).

End DOM.

Import DOM.

(** ** Data model *)

Record VideoData : Type := mkVideo {
  id : string;
  title : string;
  videoUrl : string;
  likeCount : number
}.

(** [channelName] is declared a [string]; the analyzer stores what it finds
    in the untyped state of the page, which may be any value. *)
Record ChannelData : Type := mkChannel {
  channelId : string;
  channelName : value;
  totalLikes : number;
  videoCount : nat;
  videos : list VideoData;
  lastUpdated : Z
}.

Record ExtractionResult : Type := mkResult {
  success : bool;
  data : option ChannelData;
  error : option string
}.

(** ** Aggregator *)

Definition calculateTotalLikes (vs : list VideoData) : number :=
  fold_left (fun total video => add total (likeCount video)) vs zero.

Definition entryOf (v : VideoData) : string * VideoData := (id v, v).

Definition mergeChannelData (existingData newData : ChannelData) (now : Z)
  : ChannelData :=
  let videoMap := JSMap.setAll [] (map entryOf (videos existingData)) in
  let videoMap := JSMap.setAll videoMap (map entryOf (videos newData)) in
  let allVideos := JSMap.values videoMap in
  {| channelId := channelId existingData;
     channelName := logicalOr (channelName newData)
                              (channelName existingData);
     totalLikes := calculateTotalLikes allVideos;
     videoCount := List.length allVideos;
     videos := allVideos;
     lastUpdated := now |}.

(** ** Like-count strategies over the state blobs *)

Fixpoint firstSome {A B : Type} (f : A -> option B) (l : list A)
  : option B :=
  match l with
  | [] => None
  | x :: r =>
      match f x with
      | Some y => Some y
      | None => firstSome f r
      end
  end.

(** A parsed count is taken only when it is [> 0]. *)
Definition positiveCount (text : string) : option number :=
  let likeCount := parseLikeCountText text in
  if ltb zero likeCount then Some likeCount else None.

Definition contentsPath : list string :=
  ["contents"; "twoColumnWatchNextResults"; "results"; "results";
   "contents"].

(** The body of the loop of [extractFromYtInitialData].  A truthy
    [simpleText] that is not a string has no [replace] method: the call of
    [parseLikeCountText] throws. *)
Fixpoint scanPrimaryInfo (h : heap) (contents : list value)
  : Exc (option number) :=
  match contents with
  | [] => Return None
  | content :: rest =>
      let videoInfo := get h content "videoPrimaryInfoRenderer" in
      if truthy videoInfo then
        let likeButton :=
          path h
            (at0 h (path h videoInfo
                      ["videoActions"; "menuRenderer"; "topLevelButtons"]))
            ["segmentedLikeDislikeButtonRenderer"; "likeButton";
             "toggleButtonRenderer"] in
        let likeText := path h likeButton ["defaultText"; "simpleText"] in
        if truthy likeText then
          match likeText with
          | VStr text =>
              match positiveCount text with
              | Some likeCount => Return (Some likeCount)
              | None => scanPrimaryInfo h rest
              end
          | _ => Throw "text.replace is not a function"
          end
        else scanPrimaryInfo h rest
      else scanPrimaryInfo h rest
  end.

Definition catchNull {A : Type} (m : Exc (option A)) : option A :=
  match m with
  | Return r => r
  | Throw _ => None
  end.

Definition extractFromYtInitialData (h : heap) (data : value)
  : option number :=
  catchNull
    (let contents := path h data contentsPath in
     if truthy contents
     then bindExc (iterate h contents) (scanPrimaryInfo h)
     else Return None).

(** The result of a recursion run on a call stack that allows a bounded
    number of nested calls: a value, or the exhaustion of the stack, which
    the engine raises as a [RangeError]. *)
Inductive outcome (A : Type) : Type :=
| Done (a : A)
| OutOfFuel.

Arguments Done {A} a.
Arguments OutOfFuel {A}.

Definition likeKey (key : string) : bool :=
  Str.includes (Str.toLowerCase key) "like".

(** The first test of the loop body: a key that mentions "like" with a
    string value that parses to a positive count. *)
Definition likeEntry (key : string) (v : value) : option number :=
  if likeKey key then
    match v with
    | VStr text => positiveCount text
    | _ => None
    end
  else None.

(** The loop over [Object.entries(obj)], with the recursive call as a
    parameter. *)
Fixpoint searchEntries (recur : value -> outcome (option number))
  (es : list (string * value)) : outcome (option number) :=
  match es with
  | [] => Done None
  | (key, v) :: es' =>
      match likeEntry key v with
      | Some likeCount => Done (Some likeCount)
      | None =>
          match v with
          | VRef _ =>
              match recur v with
              | Done (Some result) => Done (Some result)
              | Done None => searchEntries recur es'
              | OutOfFuel => OutOfFuel
              end
          | _ => searchEntries recur es'
          end
      end
  end.

(** [searchForLikeCount]: [fuel] is the number of nested calls the engine's
    call stack still allows, each nested call takes one; the source keeps no
    set of visited objects and counts no depth of its own. *)
Fixpoint searchForLikeCount (fuel : nat) (h : heap) (obj : value)
  : outcome (option number) :=
  match fuel with
  | O => OutOfFuel
  | S fuel' =>
      match obj with
      | VRef a => searchEntries (searchForLikeCount fuel' h) (entries (h a))
      | _ => Done None
      end
  end.


(** ** Like count from the page structure *)

Definition isCountChar (c : ascii) : bool :=
  Str.isDigit c || Ascii.eqb c "." || Ascii.eqb c ",".

Definition isSuffix (c : ascii) : bool :=
  Ascii.eqb c "K" || Ascii.eqb c "M" || Ascii.eqb c "B".

(** [text.match(/^[\d.,]+[KMB]?$/)] *)
Definition matchesCount (text : string) : bool :=
  let (run, rest) := Str.span isCountChar text in
  negb (Str.isEmpty run)
  && match rest with
     | EmptyString => true
     | String c EmptyString => isSuffix c
     | _ => false
     end.

Definition mentionsLike (label : option string) : bool :=
  match label with
  | Some l => negb (Str.isEmpty l) && Str.includes (Str.toLowerCase l) "like"
  | None => false
  end.

Definition trimmedText (e : located) : string :=
  Str.trim (textContent (fst e)).

(** [[aria-label*="like"], [aria-label*="Like"]] *)
Definition likeLabelled : selector :=
  [[AttrHas "aria-label" "like"]; [AttrHas "aria-label" "Like"]].

(** [button, [role="button"]] *)
Definition buttons : selector := [[Tag "button"]; [AttrEq "role" "button"]].

(** [*] *)
Definition everything : selector := [[Universal]].

Definition countIn (text : string) : option number :=
  if negb (Str.isEmpty text) && matchesCount text
  then positiveCount text else None.

(** Method 1: elements labelled with "like" whose own text is a count. *)
Definition fromLabelledElements (d : Document) : option number :=
  firstSome
    (fun element =>
       if mentionsLike (getAttribute "aria-label" (fst element))
       then countIn (trimmedText element) else None)
    (querySelectorAll d likeLabelled).

(** Method 2: the first 20 buttons; below one labelled with "like", the
    first element whose text is a count. *)
Definition fromButtons (d : Document) : option number :=
  firstSome
    (fun button =>
       if mentionsLike (getAttribute "aria-label" (fst button))
       then firstSome (fun child => countIn (trimmedText child))
              (querySelectorAllIn button everything)
       else None)
    (firstn 20 (querySelectorAll d buttons)).

(** Method 3: short counts whose parent's text mentions "like" or "thumb";
    the first 5 are tried. *)
Definition nearLikeText (element : located) : bool :=
  let text := trimmedText element in
  negb (Str.isEmpty text) && matchesCount text
  && (String.length text <? 10)%nat
  && match parentElement element with
     | Some parent =>
         let parentText := Str.toLowerCase (textContent parent) in
         Str.includes parentText "like" || Str.includes parentText "thumb"
     | None => false
     end.

Definition fromNearbyText (d : Document) : option number :=
  firstSome (fun element => positiveCount (trimmedText element))
    (firstn 5 (List.filter nearLikeText (querySelectorAll d everything))).

Definition extractLikeCountFromDOM (d : Document) : number :=
  match fromLabelledElements d with
  | Some likeCount => likeCount
  | None =>
      match fromButtons d with
      | Some likeCount => likeCount
      | None =>
          match fromNearbyText d with
          | Some likeCount => likeCount
          | None => zero
          end
      end
  end.

(** [extractLikeCount]: what precedes the call of [extractLikeCountFromDOM]
    reads [window] and the script tags for logging only. *)
Definition extractLikeCount (w : Window) (d : Document) : number :=
  extractLikeCountFromDOM d.

(** ** Channel name *)

Definition ownerTextPath : list string :=
  ["videoSecondaryInfoRenderer"; "owner"; "videoOwnerRenderer"; "title";
   "runs"].

(** [content?.videoSecondaryInfoRenderer?.owner?.videoOwnerRenderer?.title
           ?.runs?.[0]?.text] *)
Definition ownerText (h : heap) (content : value) : value :=
  get h (at0 h (path h content ownerTextPath)) "text".

(** The first truthy [f x], [null] when the loop ends without one. *)
Fixpoint firstTruthy {A : Type} (f : A -> value) (xs : list A) : value :=
  match xs with
  | [] => VNull
  | x :: r => if truthy (f x) then f x else firstTruthy f r
  end.

(** [try { ... } catch { return null }] around a computation of a value. *)
Definition catchValue (m : Exc value) : value :=
  match m with
  | Return v => v
  | Throw _ => VNull
  end.

(** The declared result type is [string | null]; what is returned is the
    value found at the path, whatever its type. *)
Definition extractChannelNameFromYtInitialData (h : heap) (data : value)
  : value :=
  catchValue
    (let contents := path h data contentsPath in
     if truthy contents
     then bindExc (iterate h contents)
            (fun cs => Return (firstTruthy (ownerText h) cs))
     else Return VNull).

Definition channelSelectors : list selector :=
  [ [[Tag "ytd-video-owner-renderer"; Tag "yt-formatted-string"; Tag "a"]];
    [[Tag "ytd-channel-name"; Tag "yt-formatted-string"; Tag "a"]];
    [[Tag "ytd-video-owner-renderer"; Tag "yt-formatted-string"]];
    [[Tag "ytd-channel-name"; Tag "yt-formatted-string"]];
    [[Tag "ytd-video-owner-renderer"; Id "channel-name"; Tag "a"]];
    [[Tag "ytd-video-owner-renderer"; Id "channel-name"]];
    [[AttrEq "id" "owner-name"; Tag "a"]];
    [[AttrEq "id" "owner-name"]] ].

Definition nonEmptyText (element : located) : option string :=
  let text := trimmedText element in
  if Str.isEmpty text then None else Some text.

Definition channelNameFromDOM (d : Document) : option string :=
  firstSome
    (fun sel => firstSome nonEmptyText (querySelectorAll d sel))
    channelSelectors.

(** A value inside a template literal of a log message: the text goes to
    the console, but the conversion of an object can throw. *)
Definition interpolate (w : Window) (v : value) : Exc unit :=
  match v with
  | VRef a => bindExc (toString w a) (fun _ => Return tt)
  | _ => Return tt
  end.

Definition extractChannelName (w : Window) (d : Document) : value :=
  catchValue
    (let channelName :=
       if truthy (ytInitialData w)
       then extractChannelNameFromYtInitialData (objects w) (ytInitialData w)
       else VNull in
     if truthy channelName
     then bindExc (interpolate w channelName) (fun _ => Return channelName)
     else
       let author :=
         if truthy (ytInitialPlayerResponse w)
         then path (objects w) (ytInitialPlayerResponse w)
                ["videoDetails"; "author"]
         else VUndefined in
       if truthy author
       then bindExc (interpolate w author) (fun _ => Return author)
       else Return match channelNameFromDOM d with
                   | Some text => VStr text
                   | None => VNull
                   end).

(** ** Page analyzer *)

(** The components the analyzer calls, in the order of the calls. *)
Inductive call : Type :=
| CallExtractVideoId
| CallExtractLikeCount
| CallExtractChannelName
| CallExtractChannelId.

(** A computation that records the calls it makes and may throw. *)
Definition Run (A : Type) : Type := list call * Exc A.

Definition ret {A : Type} (a : A) : Run A := ([], Return a).

Definition invoke {A : Type} (c : call) (e : Exc A) : Run A := ([c], e).

Definition bindRun {A B : Type} (m : Run A) (k : A -> Run B) : Run B :=
  match m with
  | (t, Return a) => let (t', r) := k a in (t ++ t', r)
  | (t, Throw msg) => (t, Throw msg)
  end.

Notation "x <~ m ;; k" := (bindRun m (fun x => k))
  (at level 61, m at next level, right associativity).

(** [a || b] on a string that may be [null]. *)
Definition orElse (a : option string) (b : string) : string :=
  match a with
  | Some s => if Str.isEmpty s then b else s
  | None => b
  end.

Definition failure (message : string) : ExtractionResult :=
  {| success := false; data := None; error := Some message |}.

Section Platform.

(** [new URL(url).pathname]: the path of a parsable address, a [TypeError]
    otherwise. *)
Variable URL_pathname : string -> Exc string.

(** [Date.now()] at the call. *)
Variable now : Z.

Definition extractChannelId (url : string) : Exc (option string) :=
  pathname <- URL_pathname url ;;
  Return (firstPattern patterns pathname).

Definition analyzeRun (w : Window) (d : Document) (url : string)
  : Run ExtractionResult :=
  found <~ invoke CallExtractVideoId (Return (extractVideoId url)) ;;
  match found with
  | None => ret (failure "Not a video page")
  | Some EmptyString => ret (failure "Not a video page")
  | Some videoId =>
      likeCount <~ invoke CallExtractLikeCount
                     (Return (extractLikeCount w d)) ;;
      channelName <~ invoke CallExtractChannelName
                       (Return (extractChannelName w d)) ;;
      channel <~ invoke CallExtractChannelId (extractChannelId url) ;;
      let channelId := orElse channel videoId in
      let videoData :=
        {| id := videoId;
           title := Str.replace (DOM.title d) " - YouTube" "";
           videoUrl := url;
           likeCount := likeCount |} in
      let channelData :=
        {| channelId := channelId;
           channelName := logicalOr channelName (VStr "Unknown Channel");
           totalLikes := likeCount;
           videoCount := 1;
           videos := [videoData];
           lastUpdated := now |} in
      ret {| success := true; data := Some channelData; error := None |}
  end.

(** The [try]/[catch] around the whole body. *)
Definition analyzeYouTubePage (w : Window) (d : Document) (url : string)
  : ExtractionResult :=
  match snd (analyzeRun w d url) with
  | Return result => result
  | Throw message => failure message
  end.

Definition callsOf (w : Window) (d : Document) (url : string) : list call :=
  fst (analyzeRun w d url).

End Platform.

(** A reference instance of the [URL] constructor for addresses of the form
    [scheme://host/path?query#fragment]; anything else is not parsable. *)
Module SimpleURL.

Definition isSchemeChar (c : ascii) : bool :=
  Str.isWord c && negb (Ascii.eqb c "_")
  || Ascii.eqb c "+" || Ascii.eqb c "-" || Ascii.eqb c ".".

Definition isHostChar (c : ascii) : bool :=
  negb (Ascii.eqb c "/" || Ascii.eqb c "?" || Ascii.eqb c "#").

Definition isPathChar (c : ascii) : bool :=
  negb (Ascii.eqb c "?" || Ascii.eqb c "#").

Definition pathname (url : string) : Exc string :=
  let (scheme, r) := Str.span isSchemeChar url in
  if Str.isEmpty scheme then Throw "Invalid URL"
  else
    match Str.startsWith "://" r with
    | None => Throw "Invalid URL"
    | Some r' =>
        let (host, r'') := Str.span isHostChar r' in
        if Str.isEmpty host then Throw "Invalid URL"
        else
          let (p, _) := Str.span isPathChar r'' in
          Return (if Str.isEmpty p then "/" else p)
    end.

End SimpleURL.

(** ** Example inputs *)

Module Examples.

Definition emptyWindow : Window :=
  mkWindow (fun _ => Props []) (fun _ => Return "[object Object]")
    VUndefined VUndefined.

(** An object graph of the known shape whose like button reads "1.2K". *)
Definition stateHeap : heap :=
  fun a =>
    match a with
    | 0 => Props [("contents", VRef 1)]
    | 1 => Props [("twoColumnWatchNextResults", VRef 2)]
    | 2 => Props [("results", VRef 3)]
    | 3 => Props [("results", VRef 4)]
    | 4 => Props [("contents", VRef 5)]
    | 5 => Elems [VRef 6]
    | 6 => Props [("videoPrimaryInfoRenderer", VRef 7)]
    | 7 => Props [("videoActions", VRef 8)]
    | 8 => Props [("menuRenderer", VRef 9)]
    | 9 => Props [("topLevelButtons", VRef 10)]
    | 10 => Elems [VRef 11]
    | 11 => Props [("segmentedLikeDislikeButtonRenderer", VRef 12)]
    | 12 => Props [("likeButton", VRef 13)]
    | 13 => Props [("toggleButtonRenderer", VRef 14)]
    | 14 => Props [("defaultText", VRef 15)]
    | 15 => Props [("simpleText", VStr "1.2K")]
    | _ => Props []
    end.

Definition stateWindow : Window :=
  mkWindow stateHeap (fun _ => Return "[object Object]") (VRef 0) VUndefined.

(** A page without any like element and without a channel name. *)
Definition bareDocument : Document :=
  mkDocument "Clip - YouTube"
    (Element "html" [] [Element "body" [] [Element "div" [] [Text "hello"]]]).

(** A page whose like button shows "5". *)
Definition fiveDocument : Document :=
  mkDocument "Clip - YouTube"
    (Element "html" []
       [Element "body" []
          [Element "button" [("aria-label", "like this video")]
             [Element "span" [] [Text "5"]]]]).




Definition watchUrl : string := "https://www.youtube.com/watch?v=v1".

(** An object that refers to itself. *)
Definition cyclicHeap : heap := fun _ => Props [("self", VRef 0)].





Definition video (i : string) (n : Z) : VideoData :=
  {| id := i; title := "t"; videoUrl := "u"; likeCount := ofZ n |}.

(** What the analyzer builds for [fiveDocument] at [watchUrl] at time 7. *)
Definition analysed : ChannelData :=
  {| channelId := "v1";
     channelName := VStr "Unknown Channel";
     totalLikes := ofZ 5;
     videoCount := 1;
     videos := [ {| id := "v1"; title := "Clip"; videoUrl := watchUrl;
                    likeCount := ofZ 5 |} ];
     lastUpdated := 7 |}.

Definition channelOf (name : string) (vs : list VideoData) : ChannelData :=
  {| channelId := "UC1";
     channelName := VStr name;
     totalLikes := calculateTotalLikes vs;
     videoCount := List.length vs;
     videos := vs;
     lastUpdated := 0 |}.

End Examples.

(** ** The properties of the specification *)

(** The invariants of the data model on an aggregate. *)
Definition Invariant (c : ChannelData) : Prop :=
  totalLikes c = calculateTotalLikes (videos c)
  /\ videoCount c = List.length (videos c)
  /\ NoDup (map id (videos c)).

(** The aggregates the system produces: a successful analysis of a page,
    and the merge of two produced aggregates. *)
Inductive Produced (URL_pathname : string -> Exc string)
  : ChannelData -> Prop :=
| ProducedByAnalysis (now : Z) (w : Window) (d : Document) (url : string)
    (c : ChannelData) :
    analyzeYouTubePage URL_pathname now w d url
    = {| success := true; data := Some c; error := None |} ->
    Produced URL_pathname c
| ProducedByMerge (now : Z) (existingData newData : ChannelData) :
    Produced URL_pathname existingData ->
    Produced URL_pathname newData ->
    Produced URL_pathname (mergeChannelData existingData newData now).

Definition hasId (i : string) (v : VideoData) : bool := String.eqb (id v) i.

(** The sum of like counts taken in order: they are added from the left,
    starting at [0]. *)
Definition sumInOrder (counts : list number) : number :=
  fold_left add counts zero.

(** [v] is the record of [vs] that a last-write-wins pass keeps for its
    id: no later record of [vs] has the same id. *)
Definition LastOfItsId (vs : list VideoData) (v : VideoData) : Prop :=
  exists before after,
    vs = before ++ v :: after /\ ~ In (id v) (map id after).

Fixpoint allChars (p : ascii -> bool) (s : string) : Prop :=
  match s with
  | EmptyString => True
  | String c r => p c = true /\ allChars p r
  end.

(** What follows a group of [cls] characters: the end of the string or a
    character outside [cls]. *)
Definition endsGroup (cls : ascii -> bool) (rest : string) : Prop :=
  match rest with
  | EmptyString => True
  | String c _ => cls c = false
  end.

(** [s] starts with one of the literals, followed by the non-empty
    identifier [ident] made of [cls] characters, which ends where [s] ends
    or at the first character outside [cls]. *)
Inductive ShapeAt (cls : ascii -> bool) (literals : list string)
  (s ident : string) : Prop :=
| shapeAt (literal rest : string) :
    In literal literals ->
    s = (literal ++ ident ++ rest)%string ->
    ident <> EmptyString ->
    allChars cls ident ->
    endsGroup cls rest ->
    ShapeAt cls literals s ident.

(** The two canonical shapes of a video address. *)
Definition videoLiterals : list string :=
  ["youtube.com/watch?v="; "youtu.be/"].

(** The characters at which a video identifier ends: [&], newline, [?]
    and [#]. *)
Definition endsVideoId (c : ascii) : Prop :=
  c = "&"%char \/ c = "010"%char \/ c = "?"%char \/ c = "#"%char.

(** The character at which a path segment ends. *)
Definition endsSegment (c : ascii) : Prop := c = "/"%char.

(** No character of [s] is a [stop] character. *)
Fixpoint freeOf (stop : ascii -> Prop) (s : string) : Prop :=
  match s with
  | EmptyString => True
  | String c r => ~ stop c /\ freeOf stop r
  end.

(** [rest] is empty or begins with a [stop] character. *)
Definition stopsAt (stop : ascii -> Prop) (rest : string) : Prop :=
  match rest with
  | EmptyString => True
  | String c _ => stop c
  end.

(** [s] is one of the literals, then the non-empty identifier [ident]
    without any [stop] character, then nothing or a [stop] character and
    whatever follows it. *)
Inductive Shape (stop : ascii -> Prop) (literals : list string)
  (s ident : string) : Prop :=
| shape (literal rest : string) :
    In literal literals ->
    s = (literal ++ ident ++ rest)%string ->
    ident <> EmptyString ->
    freeOf stop ident ->
    stopsAt stop rest ->
    Shape stop literals s ident.

(** The three prefixes of a channel path. *)
Definition channelPrefixes : list string := ["/channel/"; "/c/"; "/@"].

Definition VideoShapeAt : string -> string -> Prop :=
  Shape endsVideoId videoLiterals.

(** [ident] is the identifier of the leftmost canonical shape in [url]. *)
Definition VideoIdOf (url ident : string) : Prop :=
  exists before tail,
    url = (before ++ tail)%string
    /\ VideoShapeAt tail ident
    /\ forall before' tail' ident',
         url = (before' ++ tail')%string ->
         VideoShapeAt tail' ident' ->
         String.length before <= String.length before'.

Definition NoVideoShape (url : string) : Prop :=
  forall before tail ident,
    url = (before ++ tail)%string -> ~ VideoShapeAt tail ident.

(** The path starts with one of the three prefixes and [ident] is the
    segment after it. *)
Definition ChannelShape : string -> string -> Prop :=
  Shape endsSegment channelPrefixes.


(** A well-formed outcome: a success carries data and no error, a failure
    carries a message and no data. *)
Definition WellFormedOutcome (r : ExtractionResult) : Prop :=
  (success r = true /\ (exists c, data r = Some c) /\ error r = None)
  \/ (success r = false /\ data r = None /\ exists m, error r = Some m).

(** Every entry of the map stands under the id of its record. *)
Definition Keyed (m : JSMap.t VideoData) : Prop :=
  Forall (fun e => fst e = id (snd e)) m.

(** The map [mergeChannelData] builds before it reads the values off. *)
Definition mergedMap (existingData newData : ChannelData)
  : JSMap.t VideoData :=
  JSMap.setAll (JSMap.setAll [] (map entryOf (videos existingData)))
    (map entryOf (videos newData)).

(** The values a locator may return: the sentinel [0] or a count [> 0]. *)
Definition ZeroOrPositive (n : number) : Prop :=
  n = zero \/ ltb zero n = true.

(** ** Further notions *)

(** A number that is neither [NaN] nor negative: [+0], a positive finite
    number or [+Infinity]. *)
Definition NonNegative (x : number) : Prop :=
  match x with
  | S754_zero s | S754_infinity s | S754_finite s _ _ => s = false
  | S754_nan => False
  end.

(** A digit, or a character that [parseLikeCountText] drops. *)
Definition digitOrDropped (c : ascii) : bool :=
  Str.isDigit c || negb (keepChar c).

Definition digitOrDot (c : ascii) : bool :=
  Str.isDigit c || Ascii.eqb c ".".

(** The keys of a map after further keys are set in order: those not yet
    present are appended. *)
Definition appendNew (ks new : list string) : list string :=
  fold_left
    (fun acc k => if existsb (String.eqb k) acc then acc else acc ++ [k])
    new ks.

(** The record that stands for [v] after a merge with [incoming]: the
    incoming record of the same id when there is one. *)
Definition supersededBy (incoming : list VideoData) (v : VideoData)
  : VideoData :=
  match JSMap.get (map entryOf incoming) (id v) with
  | Some v' => v'
  | None => v
  end.

(** The incoming record has an id that no existing record has. *)
Definition isNewTo (existing : list VideoData) (v : VideoData) : bool :=
  negb (existsb (String.eqb (id v)) (map id existing)).

(** ** The navigation watcher of [src/content.tsx]

    The closure of the [MutationObserver] keeps the last address and the
    last video identifier; a mutation with another address or another
    identifier stores the new pair and schedules an analysis. *)

Record Watcher : Type := mkWatcher {
  lastUrl : string;
  lastVideoId : option string
}.

Definition startWatcher (href : string) : Watcher :=
  {| lastUrl := href; lastVideoId := extractVideoId href |}.

(** The stored identifier is the identifier of the stored address. *)
Definition Coherent (st : Watcher) : Prop :=
  lastVideoId st = extractVideoId (lastUrl st).

(** [a !== b] on [string | null]. *)
Definition differs (a b : option string) : bool :=
  match a, b with
  | Some x, Some y => negb (String.eqb x y)
  | None, None => false
  | _, _ => true
  end.

(** The observer callback on a mutation seen at the address [url]: the new
    state, and whether [analyzePage] is scheduled. *)
Definition onMutation (st : Watcher) (url : string) : Watcher * bool :=
  let currentVideoId := extractVideoId url in
  if negb (String.eqb url (lastUrl st))
     || differs currentVideoId (lastVideoId st)
  then ({| lastUrl := url; lastVideoId := currentVideoId |}, true)
  else (st, false).

(** The watcher after a sequence of mutations, with the number of analyses
    scheduled on the way. *)
Fixpoint runWatcher (st : Watcher) (urls : list string) : Watcher * nat :=
  match urls with
  | [] => (st, 0)
  | url :: rest =>
      let (st', scheduled) := onMutation st url in
      let (final, n) := runWatcher st' rest in
      (final, if scheduled then S n else n)
  end.

(** * Proofs *)

(** ** Insertion-ordered maps *)

Section MapFacts.

Context {V : Type}.
Implicit Types (m : JSMap.t V) (k : string) (v : V).

Lemma keys_set_present m k v :
  In k (JSMap.keys m) -> JSMap.keys (JSMap.set m k v) = JSMap.keys m.
Proof.
  induction m as [|[k' v'] m IH]; simpl; [tauto|].
  intros Hin. destruct (String.eqb k' k) eqn:E; simpl; [reflexivity|].
  apply String.eqb_neq in E. f_equal. apply IH. tauto.
Qed.

Lemma keys_set_absent m k v :
  ~ In k (JSMap.keys m) ->
  JSMap.set m k v = m ++ [(k, v)].
Proof.
  induction m as [|[k' v'] m IH]; simpl; [reflexivity|].
  intros Hn. destruct (String.eqb k' k) eqn:E.
  - apply String.eqb_eq in E. tauto.
  - f_equal. apply IH. tauto.
Qed.

Lemma keys_set_NoDup m k v :
  NoDup (JSMap.keys m) -> NoDup (JSMap.keys (JSMap.set m k v)).
Proof.
  intros Hnd. destruct (in_dec string_dec k (JSMap.keys m)) as [Hin|Hn].
  - now rewrite keys_set_present.
  - rewrite keys_set_absent by assumption.
    unfold JSMap.keys. rewrite map_app. simpl.
    apply NoDup_app; [assumption | repeat constructor; simpl; tauto |].
    simpl. intros x Hx [<-|[]]. now apply Hn.
Qed.

Lemma keys_setAll_NoDup es m :
  NoDup (JSMap.keys m) -> NoDup (JSMap.keys (JSMap.setAll m es)).
Proof.
  revert m. unfold JSMap.setAll.
  induction es as [|e es IH]; simpl; intros m Hnd; [assumption|].
  apply IH. now apply keys_set_NoDup.
Qed.

Lemma get_set_same m k v : JSMap.get (JSMap.set m k v) k = Some v.
Proof.
  induction m as [|[k' v'] m IH]; simpl.
  - now rewrite String.eqb_refl.
  - destruct (String.eqb k' k) eqn:E; simpl; rewrite E; auto.
Qed.

Lemma get_set_other m k v k' :
  k' <> k -> JSMap.get (JSMap.set m k v) k' = JSMap.get m k'.
Proof.
  intros Hne. induction m as [|[k0 v0] m IH]; simpl.
  - destruct (String.eqb k k') eqn:E; [|reflexivity].
    apply String.eqb_eq in E. congruence.
  - destruct (String.eqb k0 k) eqn:E; simpl.
    + apply String.eqb_eq in E. subst k0.
      destruct (String.eqb k k') eqn:E'; [|reflexivity].
      apply String.eqb_eq in E'. congruence.
    + now rewrite IH.
Qed.

Lemma get_setAll_absent es m k :
  ~ In k (map fst es) -> JSMap.get (JSMap.setAll m es) k = JSMap.get m k.
Proof.
  revert m. unfold JSMap.setAll.
  induction es as [|[k0 v0] es IH]; simpl; intros m Hn; [reflexivity|].
  rewrite IH by tauto. apply get_set_other. intros ->. tauto.
Qed.

(** Last write wins. *)
Lemma get_setAll_last m before k v after :
  ~ In k (map fst after) ->
  JSMap.get (JSMap.setAll m (before ++ (k, v) :: after)) k = Some v.
Proof.
  intros Hn. unfold JSMap.setAll. rewrite fold_left_app. simpl.
  fold (JSMap.setAll (JSMap.set (fold_left
         (fun acc e => JSMap.set acc (fst e) (snd e)) before m) k v) after).
  rewrite get_setAll_absent by assumption. apply get_set_same.
Qed.

Lemma get_In m k v : JSMap.get m k = Some v -> In (k, v) m.
Proof.
  induction m as [|[k' v'] m IH]; simpl; [discriminate|].
  destruct (String.eqb k' k) eqn:E.
  - apply String.eqb_eq in E. intros [= ->]. left. now subst.
  - intros H. right. now apply IH.
Qed.

Lemma In_get m k v :
  NoDup (JSMap.keys m) -> In (k, v) m -> JSMap.get m k = Some v.
Proof.
  induction m as [|[k' v'] m IH]; simpl; [tauto|].
  intros Hnd [Heq|Hin].
  - injection Heq as -> ->. now rewrite String.eqb_refl.
  - inversion Hnd as [|? ? Hn Hnd']; subst.
    destruct (String.eqb k' k) eqn:E.
    + apply String.eqb_eq in E. subst k'. exfalso. apply Hn.
      change k with (fst (k, v)). now apply in_map.
    + now apply IH.
Qed.

Lemma set_unchanged m k v :
  NoDup (JSMap.keys m) -> In (k, v) m -> JSMap.set m k v = m.
Proof.
  induction m as [|[k' v'] m IH]; simpl; [tauto|].
  intros Hnd [Heq|Hin].
  - injection Heq as -> ->. now rewrite String.eqb_refl.
  - inversion Hnd as [|? ? Hn Hnd']; subst.
    destruct (String.eqb k' k) eqn:E.
    + apply String.eqb_eq in E. subst k'. exfalso. apply Hn.
      change k with (fst (k, v)). now apply in_map.
    + f_equal. now apply IH.
Qed.

Lemma setAll_unchanged es m :
  NoDup (JSMap.keys m) -> incl es m -> JSMap.setAll m es = m.
Proof.
  unfold JSMap.setAll.
  induction es as [|[k v] es IH]; simpl; intros Hnd Hincl; [reflexivity|].
  rewrite set_unchanged; [|assumption|apply Hincl; now left].
  apply IH; [assumption|]. intros x Hx. apply Hincl. now right.
Qed.

Lemma setAll_fresh es m :
  NoDup (JSMap.keys (m ++ es)) -> JSMap.setAll m es = m ++ es.
Proof.
  revert m. unfold JSMap.setAll, JSMap.keys.
  induction es as [|[k v] es IH]; simpl; intros m Hnd.
  - now rewrite app_nil_r.
  - rewrite keys_set_absent.
    + rewrite IH; rewrite <- app_assoc; [reflexivity | exact Hnd].
    + rewrite map_app in Hnd. simpl in Hnd.
      apply NoDup_remove_2 in Hnd. intros Hin. apply Hnd.
      apply in_or_app. now left.
Qed.

End MapFacts.

(** ** Aggregator *)

Lemma Keyed_set m v : Keyed m -> Keyed (JSMap.set m (id v) v).
Proof.
  unfold Keyed. induction m as [|[k' v'] m IH]; simpl; intros H.
  - repeat constructor.
  - inversion H as [|? ? Hk Hm]; subst. simpl in Hk.
    destruct (String.eqb k' (id v)) eqn:E.
    + apply String.eqb_eq in E. constructor; [exact E | exact Hm].
    + constructor; [exact Hk | now apply IH].
Qed.

Lemma Keyed_setAll vs m : Keyed m -> Keyed (JSMap.setAll m (map entryOf vs)).
Proof.
  revert m. unfold JSMap.setAll.
  induction vs as [|v vs IH]; simpl; intros m H; [assumption|].
  apply IH. now apply Keyed_set.
Qed.

Lemma Keyed_ids m : Keyed m -> map id (JSMap.values m) = JSMap.keys m.
Proof.
  unfold Keyed, JSMap.values, JSMap.keys.
  induction 1 as [|[k v] m Hk _ IH]; simpl in *; [reflexivity|].
  now rewrite IH, Hk.
Qed.

Lemma mergedMap_Keyed e n : Keyed (mergedMap e n).
Proof.
  unfold mergedMap. do 2 apply Keyed_setAll. constructor.
Qed.

Lemma mergedMap_NoDup e n : NoDup (JSMap.keys (mergedMap e n)).
Proof.
  unfold mergedMap. do 2 apply keys_setAll_NoDup. constructor.
Qed.

Lemma videos_merge e n now :
  videos (mergeChannelData e n now) = JSMap.values (mergedMap e n).
Proof. reflexivity. Qed.

Lemma merge_ids_NoDup e n now :
  NoDup (map id (videos (mergeChannelData e n now))).
Proof.
  rewrite videos_merge, Keyed_ids by apply mergedMap_Keyed.
  apply mergedMap_NoDup.
Qed.


Lemma filter_hasId_absent m k :
  Keyed m -> ~ In k (JSMap.keys m) ->
  List.filter (hasId k) (JSMap.values m) = [].
Proof.
  unfold Keyed, JSMap.values, JSMap.keys, hasId.
  induction 1 as [|[k' v'] m Hk _ IH]; simpl in *; intros Hn; [reflexivity|].
  subst k'. destruct (String.eqb (id v') k) eqn:E.
  - apply String.eqb_eq in E. tauto.
  - apply IH. tauto.
Qed.

Lemma filter_hasId_present m k v :
  Keyed m -> NoDup (JSMap.keys m) -> JSMap.get m k = Some v ->
  List.filter (hasId k) (JSMap.values m) = [v].
Proof.
  intros HK. induction HK as [|[k' v'] m Hk HK IH]; simpl in *;
    intros Hnd Hget; [discriminate|].
  subst k'. inversion Hnd as [|? ? Hn Hnd']; subst.
  unfold hasId at 1. destruct (String.eqb (id v') k) eqn:E.
  - injection Hget as ->. f_equal.
    apply String.eqb_eq in E. subst k. now apply filter_hasId_absent.
  - now apply IH.
Qed.

Lemma In_values_get m v :
  Keyed m -> In v (JSMap.values m) -> In (id v, v) m.
Proof.
  unfold JSMap.values. intros HK Hin.
  apply in_map_iff in Hin as [[k v'] [Heq Hin]]. simpl in Heq. subst v'.
  unfold Keyed in HK. rewrite Forall_forall in HK.
  specialize (HK _ Hin). simpl in HK. now subst k.
Qed.

(** ** Numbers *)


Lemma positiveCount_positive text n :
  positiveCount text = Some n -> ltb zero n = true.
Proof.
  unfold positiveCount.
  destruct (ltb zero (parseLikeCountText text)) eqn:E; [|discriminate].
  now intros [= <-].
Qed.

Lemma firstSome_Some {A B} (f : A -> option B) l y :
  firstSome f l = Some y -> exists x, In x l /\ f x = Some y.
Proof.
  induction l as [|x l IH]; simpl; [discriminate|].
  destruct (f x) eqn:E.
  - intros [= <-]. exists x. auto.
  - intros H. destruct (IH H) as [x' [Hin Hx']]. exists x'. auto.
Qed.

Lemma firstSome_None {A B} (f : A -> option B) l :
  firstSome f l = None <-> forall x, In x l -> f x = None.
Proof.
  induction l as [|x l IH]; simpl.
  - split; [intros _ ? [] | reflexivity].
  - destruct (f x) eqn:E; split.
    + discriminate.
    + intros H. rewrite <- E. apply H. now left.
    + intros H x' [<-|Hin]; [assumption|]. now apply IH.
    + intros H. apply IH. intros x' Hin. apply H. now right.
Qed.

Lemma countIn_positive text n : countIn text = Some n -> ltb zero n = true.
Proof.
  unfold countIn. destruct (_ && _); [|discriminate].
  apply positiveCount_positive.
Qed.

(** ** Like-count locator *)

Lemma fromLabelledElements_positive d n :
  fromLabelledElements d = Some n -> ltb zero n = true.
Proof.
  unfold fromLabelledElements. intros H.
  apply firstSome_Some in H as [x [_ Hx]].
  destruct (mentionsLike _); [|discriminate].
  now apply countIn_positive in Hx.
Qed.

Lemma fromButtons_positive d n :
  fromButtons d = Some n -> ltb zero n = true.
Proof.
  unfold fromButtons. intros H.
  apply firstSome_Some in H as [x [_ Hx]].
  destruct (mentionsLike _); [|discriminate].
  apply firstSome_Some in Hx as [y [_ Hy]].
  now apply countIn_positive in Hy.
Qed.

Lemma fromNearbyText_positive d n :
  fromNearbyText d = Some n -> ltb zero n = true.
Proof.
  unfold fromNearbyText. intros H.
  apply firstSome_Some in H as [x [_ Hx]].
  now apply positiveCount_positive in Hx.
Qed.

Lemma extractLikeCount_range w d : ZeroOrPositive (extractLikeCount w d).
Proof.
  unfold extractLikeCount, extractLikeCountFromDOM, ZeroOrPositive.
  destruct (fromLabelledElements d) eqn:E1;
    [right; eapply fromLabelledElements_positive; eassumption|].
  destruct (fromButtons d) eqn:E2;
    [right; eapply fromButtons_positive; eassumption|].
  destruct (fromNearbyText d) eqn:E3;
    [right; eapply fromNearbyText_positive; eassumption|].
  now left.
Qed.

(** ** Identifier extractors *)

Lemma startsWith_Some p s r :
  Str.startsWith p s = Some r <-> s = (p ++ r)%string.
Proof.
  revert s. induction p as [|a p IH]; intros s; simpl.
  - split; [now intros [= ->] | now intros ->].
  - destruct s as [|b s]; [split; discriminate|].
    destruct (Ascii.eqb a b) eqn:E.
    + apply Ascii.eqb_eq in E. subst b. rewrite IH.
      split; [now intros -> | now intros [= ->]].
    + apply Ascii.eqb_neq in E. split; [discriminate|].
      intros [= <- _]. now elim E.
Qed.

Lemma span_split p s a b :
  Str.span p s = (a, b) ->
  s = (a ++ b)%string /\ allChars p a /\ endsGroup p b.
Proof.
  revert a b. induction s as [|c s IH]; simpl; intros a b.
  - intros [= <- <-]. simpl. auto.
  - destruct (p c) eqn:E.
    + destruct (Str.span p s) as [a' b'] eqn:Es. intros [= <- <-].
      destruct (IH _ _ eq_refl) as (-> & Ha & Hb). simpl. auto.
    + intros [= <- <-]. simpl. auto.
Qed.

Lemma span_unique p a b :
  allChars p a -> endsGroup p b -> Str.span p (a ++ b) = (a, b).
Proof.
  induction a as [|c a IH]; simpl; intros Ha Hb.
  - destruct b as [|c b]; [reflexivity|]. simpl in *. now rewrite Hb.
  - destruct Ha as [Hc Ha]. rewrite Hc, IH by assumption. reflexivity.
Qed.

Lemma isEmpty_true s : Str.isEmpty s = true <-> s = EmptyString.
Proof. destruct s; simpl; split; congruence. Qed.

Lemma isEmpty_false s : Str.isEmpty s = false <-> s <> EmptyString.
Proof. destruct s; simpl; split; congruence. Qed.

Lemma matchGroupAfter_Some cls literal s ident :
  matchGroupAfter cls literal s = Some ident <->
  exists rest,
    s = (literal ++ ident ++ rest)%string
    /\ ident <> EmptyString /\ allChars cls ident /\ endsGroup cls rest.
Proof.
  unfold matchGroupAfter. split.
  - destruct (Str.startsWith literal s) as [r|] eqn:E; [|discriminate].
    apply startsWith_Some in E.
    destruct (Str.span cls r) as [g rest] eqn:Es.
    apply span_split in Es as (-> & Hg & Hr).
    destruct (Str.isEmpty g) eqn:Eg; [discriminate|].
    intros [= <-]. exists rest. apply isEmpty_false in Eg. auto.
  - intros (rest & -> & Hne & Hg & Hr).
    assert (E : Str.startsWith literal (literal ++ ident ++ rest)
                = Some (ident ++ rest)%string) by now apply startsWith_Some.
    rewrite E, span_unique by assumption.
    apply isEmpty_false in Hne. now rewrite Hne.
Qed.

Lemma isIdChar_false c : isIdChar c = false <-> endsVideoId c.
Proof.
  unfold isIdChar, endsVideoId, newline.
  rewrite negb_false_iff, !orb_true_iff, !Ascii.eqb_eq. tauto.
Qed.

Lemma isIdChar_true c : isIdChar c = true <-> ~ endsVideoId c.
Proof.
  rewrite <- isIdChar_false. destruct (isIdChar c); split; congruence.
Qed.

Lemma isSegmentChar_false c : isSegmentChar c = false <-> endsSegment c.
Proof.
  unfold isSegmentChar, endsSegment.
  now rewrite negb_false_iff, Ascii.eqb_eq.
Qed.

Lemma isSegmentChar_true c : isSegmentChar c = true <-> ~ endsSegment c.
Proof.
  rewrite <- isSegmentChar_false.
  destruct (isSegmentChar c); split; congruence.
Qed.

Lemma ShapeAt_Shape cls stop literals s ident :
  (forall c, cls c = true <-> ~ stop c) ->
  (forall c, cls c = false <-> stop c) ->
  ShapeAt cls literals s ident <-> Shape stop literals s ident.
Proof.
  intros Ht Hf.
  assert (A : forall x, allChars cls x <-> freeOf stop x).
  { induction x as [|c x IH]; simpl; [tauto|]. now rewrite Ht, IH. }
  assert (B : forall x, endsGroup cls x <-> stopsAt stop x).
  { intros [|c x]; simpl; [tauto | apply Hf]. }
  split; intros [literal rest Hin Hs Hne Hg Hr].
  - apply (shape _ _ _ _ literal rest); auto; [now apply A | now apply B].
  - apply (shapeAt _ _ _ _ literal rest); auto; [now apply A | now apply B].
Qed.

Lemma video_shape s ident :
  ShapeAt isIdChar videoLiterals s ident <-> VideoShapeAt s ident.
Proof. apply ShapeAt_Shape; [apply isIdChar_true | apply isIdChar_false]. Qed.

Lemma channel_shape s ident :
  ShapeAt isSegmentChar patterns s ident <-> ChannelShape s ident.
Proof.
  change patterns with channelPrefixes.
  apply ShapeAt_Shape; [apply isSegmentChar_true | apply isSegmentChar_false].
Qed.

Lemma matchVideoAt_Some s ident :
  matchVideoAt s = Some ident <-> VideoShapeAt s ident.
Proof.
  rewrite <- video_shape. unfold matchVideoAt, videoLiterals. split.
  - destruct (matchGroupAfter isIdChar "youtube.com/watch?v=" s) eqn:E.
    + intros [= <-]. apply matchGroupAfter_Some in E as (rest & ? & ? & ? & ?).
      econstructor; eauto. now left.
    + intros H. apply matchGroupAfter_Some in H as (rest & ? & ? & ? & ?).
      econstructor; eauto. right. now left.
  - intros [literal rest Hin Hs Hne Hg Hr].
    destruct Hin as [<-|[<-|[]]].
    + assert (E : matchGroupAfter isIdChar "youtube.com/watch?v=" s
                  = Some ident) by (apply matchGroupAfter_Some; eauto).
      now rewrite E.
    + assert (E : matchGroupAfter isIdChar "youtu.be/" s = Some ident)
        by (apply matchGroupAfter_Some; eauto).
      subst s. exact E.
Qed.

Lemma matchVideoAt_None s :
  matchVideoAt s = None <-> forall ident, ~ VideoShapeAt s ident.
Proof.
  split.
  - intros H ident Hs. apply matchVideoAt_Some in Hs. congruence.
  - intros H. destruct (matchVideoAt s) as [ident|] eqn:E; [|reflexivity].
    apply matchVideoAt_Some in E. now elim (H ident).
Qed.

Lemma extractVideoId_Some url ident :
  extractVideoId url = Some ident <-> VideoIdOf url ident.
Proof.
  revert ident. induction url as [|c r IH]; intros ident.
  - split.
    + discriminate.
    + intros (before & tail & Hurl & Hs & _).
      destruct before; [|discriminate]. simpl in Hurl. subst tail.
      apply matchVideoAt_Some in Hs. discriminate.
  - simpl extractVideoId.
    destruct (matchVideoAt (String c r)) as [i0|] eqn:E.
    + split.
      * intros [= ->]. exists EmptyString, (String c r).
        repeat split; [now apply matchVideoAt_Some | simpl; lia].
      * intros (before & tail & Hurl & Hs & Hleft).
        apply matchVideoAt_Some in E.
        specialize (Hleft EmptyString (String c r) i0 eq_refl E).
        destruct before; [|simpl in Hleft; lia].
        simpl in Hurl. subst tail. apply matchVideoAt_Some in Hs.
        apply matchVideoAt_Some in E. congruence.
    + rewrite IH. split.
      * intros (before & tail & -> & Hs & Hleft).
        exists (String c before), tail. repeat split; [assumption|].
        intros before' tail' ident' Hurl Hs'.
        destruct before' as [|c' b'].
        -- simpl in Hurl. subst tail'. apply matchVideoAt_Some in Hs'.
           congruence.
        -- injection Hurl as _ Hr. simpl.
           apply le_n_S. eapply Hleft; eassumption.
      * intros (before & tail & Hurl & Hs & Hleft).
        destruct before as [|c' b].
        -- simpl in Hurl. subst tail. apply matchVideoAt_Some in Hs.
           congruence.
        -- injection Hurl as Hc Hr. subst c'. exists b, tail.
           repeat split; [assumption | assumption |].
           intros before' tail' ident' Hr' Hs'.
           apply le_S_n.
           apply (Hleft (String c before') tail' ident');
             [simpl; now rewrite Hr' | assumption].
Qed.

Lemma extractVideoId_None url :
  extractVideoId url = None <-> NoVideoShape url.
Proof.
  unfold NoVideoShape. induction url as [|c r IH].
  - split; [|reflexivity].
    intros _ before tail ident Hurl Hs.
    destruct before; [|discriminate]. simpl in Hurl. subst tail.
    apply matchVideoAt_Some in Hs. discriminate.
  - simpl extractVideoId.
    destruct (matchVideoAt (String c r)) as [i0|] eqn:E.
    + split; [discriminate|]. intros H. exfalso.
      apply (H EmptyString (String c r) i0 eq_refl).
      now apply matchVideoAt_Some.
    + rewrite IH. split.
      * intros H before tail ident Hurl Hs.
        destruct before as [|c' b].
        -- simpl in Hurl. subst tail. apply matchVideoAt_Some in Hs.
           congruence.
        -- injection Hurl as _ Hr. exact (H b tail ident Hr Hs).
      * intros H before tail ident Hr Hs.
        apply (H (String c before) tail ident); [simpl; now rewrite Hr|].
        assumption.
Qed.

Lemma extractVideoId_nonempty url ident :
  extractVideoId url = Some ident -> ident <> EmptyString.
Proof.
  intros H. apply extractVideoId_Some in H as (before & tail & _ & Hs & _).
  now destruct Hs.
Qed.

Lemma firstPattern_Some pathname ident :
  firstPattern patterns pathname = Some ident <-> ChannelShape pathname ident.
Proof.
  rewrite <- channel_shape. unfold patterns. simpl firstPattern. split.
  - destruct (matchGroupAfter isSegmentChar "/channel/" pathname) eqn:E1.
    { intros [= <-].
      apply matchGroupAfter_Some in E1 as (rest & ? & ? & ? & ?).
      econstructor; eauto. now left. }
    destruct (matchGroupAfter isSegmentChar "/c/" pathname) eqn:E2.
    { intros [= <-].
      apply matchGroupAfter_Some in E2 as (rest & ? & ? & ? & ?).
      econstructor; eauto. right. now left. }
    destruct (matchGroupAfter isSegmentChar "/@" pathname) eqn:E3;
      [|discriminate].
    intros [= <-].
    apply matchGroupAfter_Some in E3 as (rest & ? & ? & ? & ?).
    econstructor; eauto. right. right. now left.
  - intros [literal rest Hin Hs Hne Hg Hr].
    assert (E : matchGroupAfter isSegmentChar literal pathname = Some ident)
      by (apply matchGroupAfter_Some; eauto).
    destruct Hin as [<-|[<-|[<-|[]]]]; subst pathname.
    + now rewrite E.
    + assert (N : matchGroupAfter isSegmentChar "/channel/"
                    ("/c/" ++ ident ++ rest) = None) by reflexivity.
      now rewrite N, E.
    + assert (N1 : matchGroupAfter isSegmentChar "/channel/"
                     ("/@" ++ ident ++ rest) = None) by reflexivity.
      assert (N2 : matchGroupAfter isSegmentChar "/c/"
                     ("/@" ++ ident ++ rest) = None) by reflexivity.
      now rewrite N1, N2, E.
Qed.

Lemma firstPattern_None pathname :
  firstPattern patterns pathname = None <->
  forall ident, ~ ChannelShape pathname ident.
Proof.
  split.
  - intros H ident Hs. apply firstPattern_Some in Hs. congruence.
  - intros H. destruct (firstPattern patterns pathname) as [ident|] eqn:E;
      [|reflexivity].
    apply firstPattern_Some in E. now elim (H ident).
Qed.

(** C9.  [extractVideoId] returns an identifier exactly when the address
    contains one of the two canonical shapes, [youtube.com/watch?v=<id>] or
    [youtu.be/<id>]: the identifier is the one of the leftmost shape, it is
    not empty and it ends at the first of [&], newline, [?], [#] or at the
    end of the string; the result is absent exactly when no shape occurs.
    [extractChannelId] parses the address and, on its path, returns the
    segment that follows [/channel/], [/c/] or [/@] at the start of the path
    up to the next [/], and absent exactly when none of the three is
    there.  The shapes are stated with their own prefixes and end
    characters ([videoLiterals], [channelPrefixes], [endsVideoId],
    [endsSegment]); the examples of addresses and paths are instances. *)
Theorem extractors_recognise_shapes
  (URL_pathname : string -> Exc string) (url : string) :
  (forall ident, extractVideoId url = Some ident <-> VideoIdOf url ident)
  /\ (extractVideoId url = None <-> NoVideoShape url)
  /\ match URL_pathname url with
     | Return pathname =>
         (forall ident,
            extractChannelId URL_pathname url = Return (Some ident)
            <-> ChannelShape pathname ident)
         /\ (extractChannelId URL_pathname url = Return None
             <-> forall ident, ~ ChannelShape pathname ident)
     | Throw message => extractChannelId URL_pathname url = Throw message
     end
  /\ (extractVideoId "https://www.youtube.com/watch?v=abc123&t=5"
      = Some "abc123"%string
      /\ extractVideoId "https://youtu.be/xyz789" = Some "xyz789"%string
      /\ extractVideoId "https://youtu.be/xyz789?t=1#top"
         = Some "xyz789"%string
      /\ extractVideoId "https://www.youtube.com/watch?v=#x" = None
      /\ extractVideoId "https://example.com/" = None)
  /\ (URL_pathname url = Return "/@somechannel"%string ->
      extractChannelId URL_pathname url = Return (Some "somechannel"%string))
  /\ (URL_pathname url = Return "/channel/UC123/videos"%string ->
      extractChannelId URL_pathname url = Return (Some "UC123"%string))
  /\ (URL_pathname url = Return "/c/Name"%string ->
      extractChannelId URL_pathname url = Return (Some "Name"%string))
  /\ (URL_pathname url = Return "/watch"%string ->
      extractChannelId URL_pathname url = Return None)
  /\ (URL_pathname url = Return "/channel/"%string ->
      extractChannelId URL_pathname url = Return None).
Proof.
  split; [intros ident; apply extractVideoId_Some|].
  split; [apply extractVideoId_None|].
  split.
  { unfold extractChannelId, bindExc.
    destruct (URL_pathname url) as [pathname|msg]; [|reflexivity].
    split.
    - intros ident. rewrite <- firstPattern_Some. split; congruence.
    - rewrite <- firstPattern_None. split; congruence. }
  split; [repeat split|].
  unfold extractChannelId, bindExc.
  repeat split; intros ->; reflexivity.
Qed.

Lemma extractors_recognise_shapes_witness :
  SimpleURL.pathname "https://www.youtube.com/@somechannel"
  = Return "/@somechannel"%string
  /\ extractChannelId SimpleURL.pathname
       "https://www.youtube.com/@somechannel"
     = Return (Some "somechannel"%string).
Proof.
  assert (A : SimpleURL.pathname "https://www.youtube.com/@somechannel"
              = Return "/@somechannel"%string) by reflexivity.
  split; [exact A|].
  exact (proj1 (proj2 (proj2 (proj2 (proj2
           (extractors_recognise_shapes SimpleURL.pathname
              "https://www.youtube.com/@somechannel"))))) A).
Defined.

(** ** Page analyzer *)

Section AnalyzerFacts.

Variable URL_pathname : string -> Exc string.
Variable now : Z.

Lemma run_not_video w d url :
  extractVideoId url = None ->
  analyzeRun URL_pathname now w d url
  = ([CallExtractVideoId], Return (failure "Not a video page")).
Proof.
  intros H. unfold analyzeRun, bindRun, invoke, ret.
  now rewrite H.
Qed.

(** The aggregate the analyzer wraps around the one video of the page. *)
Lemma run_video w d url videoId :
  extractVideoId url = Some videoId ->
  analyzeRun URL_pathname now w d url =
  ([CallExtractVideoId; CallExtractLikeCount; CallExtractChannelName;
    CallExtractChannelId],
   bindExc (extractChannelId URL_pathname url)
     (fun channel =>
        Return
          {| success := true;
             data :=
               Some
                 {| channelId := orElse channel videoId;
                    channelName :=
                      logicalOr (extractChannelName w d)
                                (VStr "Unknown Channel");
                    totalLikes := extractLikeCount w d;
                    videoCount := 1;
                    videos :=
                      [ {| id := videoId;
                           title := Str.replace (DOM.title d) " - YouTube" "";
                           videoUrl := url;
                           likeCount := extractLikeCount w d |} ];
                    lastUpdated := now |};
             error := None |})).
Proof.
  intros H. pose proof (extractVideoId_nonempty _ _ H) as Hne.
  unfold analyzeRun, bindRun, invoke, ret. rewrite H.
  destruct videoId as [|c s]; [congruence|].
  destruct (extractChannelId URL_pathname url); reflexivity.
Qed.

Lemma analyze_success w d url c :
  analyzeYouTubePage URL_pathname now w d url
  = {| success := true; data := Some c; error := None |} ->
  exists videoId channel,
    extractVideoId url = Some videoId
    /\ c = {| channelId := orElse channel videoId;
              channelName :=
                logicalOr (extractChannelName w d) (VStr "Unknown Channel");
              totalLikes := extractLikeCount w d;
              videoCount := 1;
              videos :=
                [ {| id := videoId;
                     title := Str.replace (DOM.title d) " - YouTube" "";
                     videoUrl := url;
                     likeCount := extractLikeCount w d |} ];
              lastUpdated := now |}.
Proof.
  unfold analyzeYouTubePage.
  destruct (extractVideoId url) as [videoId|] eqn:E.
  - rewrite (run_video w d url videoId E). simpl.
    destruct (extractChannelId URL_pathname url) as [channel|msg]; simpl.
    + intros [= <-]. now exists videoId, channel.
    + discriminate.
  - rewrite (run_not_video w d url E). discriminate.
Qed.


(** The name of an aggregate built by the analyzer is never falsy. *)
Lemma analyze_channelName w d url c :
  analyzeYouTubePage URL_pathname now w d url
  = {| success := true; data := Some c; error := None |} ->
  truthy (channelName c) = true.
Proof.
  intros H. apply analyze_success in H as (videoId & channel & _ & ->).
  simpl. unfold logicalOr.
  destruct (truthy (extractChannelName w d)) eqn:E; [exact E|reflexivity].
Qed.

(** C5.  When [extractVideoId] finds no identifier in the address,
    [analyzeYouTubePage] returns the failure "Not a video page" without
    data, and [extractVideoId] is the only component it has called.  When
    [extractVideoId] accepts the address and [extractChannelId] throws on it,
    the analysis returns a failure that carries the message of the
    exception.  On every input the analysis returns an outcome: a success
    with data and no error, or a failure with a message and no data. *)
Theorem analyze_failures_are_outcomes w d url :
  (extractVideoId url = None ->
   analyzeYouTubePage URL_pathname now w d url = failure "Not a video page"
   /\ callsOf URL_pathname now w d url = [CallExtractVideoId])
  /\ (forall videoId message,
        extractVideoId url = Some videoId ->
        extractChannelId URL_pathname url = Throw message ->
        analyzeYouTubePage URL_pathname now w d url = failure message)
  /\ WellFormedOutcome (analyzeYouTubePage URL_pathname now w d url).
Proof.
  unfold analyzeYouTubePage, callsOf.
  split; [|split].
  - intros H. now rewrite (run_not_video w d url H).
  - intros videoId message H Hthrow.
    rewrite (run_video w d url videoId H). simpl. now rewrite Hthrow.
  - destruct (extractVideoId url) as [videoId|] eqn:E.
    + rewrite (run_video w d url videoId E). simpl.
      destruct (extractChannelId URL_pathname url) as [channel|msg]; simpl.
      * left. split; [reflexivity|]. split; [eexists|]; reflexivity.
      * right. split; [reflexivity|]. split; [|eexists]; reflexivity.
    + rewrite (run_not_video w d url E). simpl.
      right. split; [reflexivity|]. split; [|eexists]; reflexivity.
Qed.

End AnalyzerFacts.



Lemma analyze_failures_are_outcomes_witness :
  (extractVideoId "https://example.com/" = None
   /\ analyzeYouTubePage SimpleURL.pathname 7 Examples.emptyWindow
        Examples.bareDocument "https://example.com/"
      = failure "Not a video page")
  /\ (extractVideoId "youtu.be/abc" = Some "abc"
      /\ extractChannelId SimpleURL.pathname "youtu.be/abc"
         = Throw "Invalid URL"
      /\ analyzeYouTubePage SimpleURL.pathname 7 Examples.emptyWindow
           Examples.bareDocument "youtu.be/abc"
         = failure "Invalid URL").
Proof.
  split.
  - split; [reflexivity|].
    apply (analyze_failures_are_outcomes SimpleURL.pathname 7
             Examples.emptyWindow Examples.bareDocument
             "https://example.com/").
    reflexivity.
  - split; [reflexivity|]. split; [reflexivity|].
    apply (proj1 (proj2 (analyze_failures_are_outcomes SimpleURL.pathname 7
                           Examples.emptyWindow Examples.bareDocument
                           "youtu.be/abc")) "abc" "Invalid URL");
      reflexivity.
Defined.

(** ** Aggregator: the claims *)

Lemma get_None_absent {V} (m : JSMap.t V) k :
  JSMap.get m k = None -> ~ In k (JSMap.keys m).
Proof.
  induction m as [|[k' v'] m IH]; simpl; [tauto|].
  destruct (String.eqb k' k) eqn:E; [discriminate|].
  apply String.eqb_neq in E. intros H [Heq|Hin]; [congruence|].
  now apply IH.
Qed.

Lemma entries_ids vs : map fst (map entryOf vs) = map id vs.
Proof. rewrite map_map. reflexivity. Qed.

Lemma entries_values vs : JSMap.values (map entryOf vs) = vs.
Proof.
  unfold JSMap.values. rewrite map_map. simpl. apply map_id.
Qed.

(** C10.  Whatever the two inputs are, also when their own lists hold
    several records under one id, the result of [mergeChannelData] holds at
    most one record per id: its ids are pairwise distinct, and for every id
    the records of the result with that id number at most one. *)
Theorem merge_establishes_unique_ids (e n : ChannelData) (now : Z) :
  NoDup (map id (videos (mergeChannelData e n now)))
  /\ forall i,
       List.length (List.filter (hasId i) (videos (mergeChannelData e n now)))
       <= 1.
Proof.
  split; [apply merge_ids_NoDup|].
  intros i. rewrite videos_merge.
  destruct (JSMap.get (mergedMap e n) i) as [v|] eqn:E.
  - rewrite (filter_hasId_present _ _ v);
      auto using mergedMap_Keyed, mergedMap_NoDup.
  - rewrite filter_hasId_absent;
      auto using mergedMap_Keyed, get_None_absent.
Qed.

Lemma NoDup_LastOfItsId vs v :
  NoDup (map id vs) -> In v vs -> LastOfItsId vs v.
Proof.
  intros Hnd Hin. apply in_split in Hin as (before & after & ->).
  exists before, after. split; [reflexivity|].
  rewrite map_app in Hnd. simpl in Hnd.
  apply NoDup_remove_2 in Hnd. intros H. apply Hnd.
  apply in_or_app. now right.
Qed.

Lemma mergedMap_last e n v :
  LastOfItsId (videos n) v -> JSMap.get (mergedMap e n) (id v) = Some v.
Proof.
  intros (before & after & Hvs & Hlast). unfold mergedMap.
  rewrite Hvs, map_app. simpl map. unfold entryOf at 2.
  apply get_setAll_last. now rewrite entries_ids.
Qed.

Lemma mergedMap_self a :
  NoDup (map id (videos a)) -> mergedMap a a = map entryOf (videos a).
Proof.
  intros Hnd. unfold mergedMap.
  assert (K : NoDup (JSMap.keys (map entryOf (videos a))))
    by (unfold JSMap.keys; now rewrite entries_ids).
  rewrite (setAll_fresh (map entryOf (videos a)) []) by exact K.
  simpl. apply setAll_unchanged; [exact K | apply incl_refl].
Qed.

(** C8.  For an aggregate [a] of the data model (unique ids, [totalLikes]
    the sum over [videos], [videoCount] their number), merging [a] with
    itself gives the same videos, the same [totalLikes], the same
    [videoCount] and the same [channelId]. *)
Theorem merge_with_itself (a : ChannelData) (now : Z) :
  Invariant a ->
  videos (mergeChannelData a a now) = videos a
  /\ totalLikes (mergeChannelData a a now) = totalLikes a
  /\ videoCount (mergeChannelData a a now) = videoCount a
  /\ channelId (mergeChannelData a a now) = channelId a.
Proof.
  intros (Htotal & Hcount & Hnd).
  assert (Hv : videos (mergeChannelData a a now) = videos a)
    by (rewrite videos_merge, mergedMap_self, entries_values; auto).
  split; [exact Hv|].
  split; [|split; [|reflexivity]].
  - change (totalLikes (mergeChannelData a a now))
      with (calculateTotalLikes (videos (mergeChannelData a a now))).
    now rewrite Hv.
  - change (videoCount (mergeChannelData a a now))
      with (List.length (videos (mergeChannelData a a now))).
    now rewrite Hv.
Qed.

Lemma merge_with_itself_witness :
  Invariant (Examples.channelOf "N"
               [Examples.video "a" 10; Examples.video "b" 3])
  /\ videos (mergeChannelData
               (Examples.channelOf "N"
                  [Examples.video "a" 10; Examples.video "b" 3])
               (Examples.channelOf "N"
                  [Examples.video "a" 10; Examples.video "b" 3]) 9)
     = [Examples.video "a" 10; Examples.video "b" 3].
Proof.
  assert (I : Invariant (Examples.channelOf "N"
                           [Examples.video "a" 10; Examples.video "b" 3])).
  { split; [reflexivity|]. split; [reflexivity|].
    simpl. repeat constructor; simpl; intuition discriminate. }
  split; [exact I|].
  exact (proj1 (merge_with_itself _ 9 I)).
Defined.

(** The hypothesis is needed: a list with two records under one id is not
    read back. *)
Lemma merge_with_itself_drops_duplicates :
  videos (mergeChannelData
            (Examples.channelOf "N"
               [Examples.video "a" 1; Examples.video "a" 2])
            (Examples.channelOf "N"
               [Examples.video "a" 1; Examples.video "a" 2]) 9)
  = [Examples.video "a" 2].
Proof. reflexivity. Qed.

(** An update of the like count of "a" from 10 to 25, next to "b" with 3:
    the merged total is 28, not 38. *)
Lemma merge_update_example :
  videos (mergeChannelData
            (Examples.channelOf "N"
               [Examples.video "a" 10; Examples.video "b" 3])
            (Examples.channelOf "N" [Examples.video "a" 25]) 9)
  = [Examples.video "a" 25; Examples.video "b" 3]
  /\ toZ (totalLikes
            (mergeChannelData
               (Examples.channelOf "N"
                  [Examples.video "a" 10; Examples.video "b" 3])
               (Examples.channelOf "N" [Examples.video "a" 25]) 9))
     = Some 28%Z.
Proof. split; vm_compute; reflexivity. Qed.

Lemma merge_channelName e n now :
  channelName (mergeChannelData e n now)
  = logicalOr (channelName n) (channelName e).
Proof. reflexivity. Qed.

(** The fallback to the existing name never applies to an aggregate built
    by the analyzer. *)
Lemma merge_after_analysis_takes_incoming_name U t w d url c e now :
  analyzeYouTubePage U t w d url
  = {| success := true; data := Some c; error := None |} ->
  channelName (mergeChannelData e c now) = channelName c.
Proof.
  intros H. apply analyze_channelName in H.
  rewrite merge_channelName. unfold logicalOr. now rewrite H.
Qed.

(** C7.  An analysis of a page on which no channel name is found succeeds
    with the name "Unknown Channel"; merging its aggregate into an
    aggregate whose name is "Real Channel" gives the name
    "Unknown Channel": the known name is lost. *)
Theorem merge_sentinel_replaces_known_name :
  exists incoming,
    analyzeYouTubePage SimpleURL.pathname 7 Examples.emptyWindow
      Examples.bareDocument Examples.watchUrl
    = {| success := true; data := Some incoming; error := None |}
    /\ extractChannelName Examples.emptyWindow Examples.bareDocument = VNull
    /\ channelName incoming = VStr "Unknown Channel"
    /\ channelName
         (mergeChannelData
            (Examples.channelOf "Real Channel" [Examples.video "v1" 5])
            incoming 9)
       = VStr "Unknown Channel".
Proof.
  eexists. split; [vm_compute; reflexivity|].
  repeat split.
Qed.

(** ** The numeric-text parser: the claims *)

(** C3.  [parseLikeCountText] gives 1200 on "1.2K", 3400000 on "3.4M", 500
    on "500", 0 on the empty string, 0 on "garbage" and 2500000000 on
    "2.5B". *)
Theorem parseLikeCountText_examples :
  toZ (parseLikeCountText "1.2K") = Some 1200%Z
  /\ toZ (parseLikeCountText "3.4M") = Some 3400000%Z
  /\ toZ (parseLikeCountText "500") = Some 500%Z
  /\ parseLikeCountText "" = zero
  /\ parseLikeCountText "garbage" = zero
  /\ toZ (parseLikeCountText "2.5B") = Some 2500000000%Z.
Proof. repeat split; vm_compute; reflexivity. Qed.

(** ** The recursive key search: the claims *)




Lemma cyclic_out_of_fuel fuel :
  searchForLikeCount fuel Examples.cyclicHeap (VRef 0) = OutOfFuel.
Proof.
  induction fuel as [|fuel IH]; [reflexivity|].
  change (searchForLikeCount (S fuel) Examples.cyclicHeap (VRef 0))
    with (match searchForLikeCount fuel Examples.cyclicHeap (VRef 0) with
          | Done (Some result) => Done (Some result)
          | Done None => @Done (option number) None
          | OutOfFuel => OutOfFuel
          end).
  now rewrite IH.
Qed.

(** On an object that refers to itself the walk has not returned, whatever
    the number of nested calls allowed. *)
Lemma search_never_returns_on_cycle :
  ~ exists fuel r,
      searchForLikeCount fuel Examples.cyclicHeap (VRef 0) = Done r.
Proof.
  intros (fuel & r & H). rewrite cyclic_out_of_fuel in H. discriminate.
Qed.





(** ** The like-count locator: the claims *)

(** The chain of the three methods over the page structure: the first that
    succeeds gives the result, [0] when none does. *)
Lemma extractLikeCountFromDOM_first_success d :
  extractLikeCountFromDOM d
  = match firstSome (fun method => method d)
            [fromLabelledElements; fromButtons; fromNearbyText] with
    | Some likeCount => likeCount
    | None => zero
    end.
Proof.
  unfold extractLikeCountFromDOM. simpl.
  destruct (fromLabelledElements d); [reflexivity|].
  destruct (fromButtons d); [reflexivity|].
  destruct (fromNearbyText d); reflexivity.
Qed.

(** The state blobs have no part in the result. *)
Lemma extractLikeCount_reads_document_only w w' d :
  extractLikeCount w d = extractLikeCount w' d.
Proof. reflexivity. Qed.

(** C2.  On a page whose initial page state has the known shape and reads
    "1.2K" on its like button, the known-shape strategy gives 1200, yet
    [extractLikeCount] never runs it: with no like element in the page
    structure the locator returns the sentinel [0], and with a like button
    showing "5" it returns 5. *)
Theorem extractLikeCount_skips_state_strategies :
  extractFromYtInitialData (objects Examples.stateWindow)
    (ytInitialData Examples.stateWindow) = Some (ofZ 1200)
  /\ extractLikeCount Examples.stateWindow Examples.bareDocument = zero
  /\ extractLikeCount Examples.stateWindow Examples.fiveDocument = ofZ 5.
Proof. repeat split; vm_compute; reflexivity. Qed.

(** * Further properties of the module *)

(** ** Numbers are never [NaN] or negative where counts are parsed *)

Lemma shr_1_nonneg mrs : (0 <= shr_m mrs)%Z -> (0 <= shr_m (shr_1 mrs))%Z.
Proof.
  destruct mrs as [m r s]. simpl.
  destruct m as [|p|p]; [simpl; lia | | lia].
  intros _. destruct p; simpl; lia.
Qed.

Lemma iter_pos_invariant {A} (P : A -> Prop) (f : A -> A) :
  (forall x, P x -> P (f x)) ->
  forall p x, P x -> P (iter_pos f p x).
Proof.
  intros Hf. induction p as [p IH|p IH|]; simpl; intros x Hx; auto.
Qed.

Lemma shr_fexp_nonneg m e l :
  (0 <= m)%Z -> (0 <= shr_m (fst (shr_fexp prec emax m e l)))%Z.
Proof.
  intros Hm. unfold shr_fexp, shr.
  assert (H0 : (0 <= shr_m (shr_record_of_loc m l))%Z)
    by (destruct l as [|[]]; exact Hm).
  destruct (_ - e)%Z; simpl; try exact H0.
  apply (iter_pos_invariant (fun r => (0 <= shr_m r)%Z));
    [apply shr_1_nonneg | exact H0].
Qed.

Lemma round_nearest_even_nonneg m l :
  (0 <= m)%Z -> (0 <= round_nearest_even m l)%Z.
Proof.
  intros Hm. destruct l as [|[]]; simpl; try lia.
  destruct (Z.even m); lia.
Qed.

Lemma binary_round_aux_sign s m e l :
  (0 <= m)%Z ->
  match binary_round_aux prec emax s m e l with
  | S754_zero s' | S754_infinity s' | S754_finite s' _ _ => s' = s
  | S754_nan => False
  end.
Proof.
  intros Hm. unfold binary_round_aux.
  pose proof (shr_fexp_nonneg m e l Hm) as H1.
  destruct (shr_fexp prec emax m e l) as [mrs' e']. simpl in H1.
  pose proof (shr_fexp_nonneg _ e' loc_Exact
                (round_nearest_even_nonneg _ (loc_of_shr_record mrs') H1))
    as H2.
  destruct (shr_fexp prec emax _ e' loc_Exact) as [mrs'' e'']. simpl in H2.
  destruct (shr_m mrs'') as [|p|p]; [reflexivity | | lia].
  destruct (Z.leb e'' (emax - prec)); reflexivity.
Qed.

Lemma binary_round_sign s m e :
  match binary_round prec emax s m e with
  | S754_zero s' | S754_infinity s' | S754_finite s' _ _ => s' = s
  | S754_nan => False
  end.
Proof.
  unfold binary_round. destruct (shl_align m e _) as [mz ez].
  apply binary_round_aux_sign. lia.
Qed.

Lemma binary_normalize_NonNegative z e :
  (0 <= z)%Z -> NonNegative (binary_normalize prec emax z e false).
Proof.
  intros Hz. destruct z as [|p|p]; [reflexivity | | lia].
  exact (binary_round_sign false p e).
Qed.

Lemma ofZ_NonNegative z : (0 <= z)%Z -> NonNegative (ofZ z).
Proof. apply binary_normalize_NonNegative. Qed.

Lemma mul_NonNegative x m e :
  NonNegative x -> NonNegative (mul x (S754_finite false m e)).
Proof.
  destruct x as [s|s| |s mx ex]; simpl; try tauto; intros ->;
    try reflexivity.
  apply (binary_round_aux_sign false). lia.
Qed.

Lemma round_NonNegative x : NonNegative x -> NonNegative (round x).
Proof.
  destruct x as [s|s| |s m e]; try (simpl; tauto).
  intros H. change (s = false) in H. subst s.
  destruct e as [|p|k]; try reflexivity.
  unfold round. apply binary_normalize_NonNegative.
  cbn [cond_Zopp].
  assert (0 < 2 ^ Z.pos k)%Z by (apply Z.pow_pos_nonneg; lia).
  apply Z.div_pos; [lia | apply Z.pow_pos_nonneg; lia].
Qed.

Lemma add_NonNegative x y :
  NonNegative x -> NonNegative y -> NonNegative (add x y).
Proof.
  destruct x as [sx|sx| |sx mx ex], y as [sy|sy| |sy my ey]; simpl;
    try tauto; intros -> ->; try reflexivity.
  apply binary_normalize_NonNegative. simpl. lia.
Qed.

Lemma NonNegative_not_positive x :
  NonNegative x -> (ltb zero x = false <-> x = zero).
Proof.
  destruct x as [s|s| |s m e]; simpl; try tauto; intros ->;
    split; try discriminate; try reflexivity.
Qed.

(** ** The numeric-text parser *)

Lemma keepChar_plain c :
  keepChar c = true ->
  Str.isSpace c = false /\ c <> "+"%char /\ c <> "-"%char.
Proof.
  destruct c as [[] [] [] [] [] [] [] []]; vm_compute; intros H;
    try discriminate H; repeat split; discriminate.
Qed.

Lemma filter_allChars p s : allChars p (Str.filter p s).
Proof.
  induction s as [|c s IH]; simpl; [exact I|].
  destruct (p c) eqn:E; simpl; auto.
Qed.

Lemma allChars_app_r p a b : allChars p (a ++ b) -> allChars p b.
Proof. induction a as [|c a IH]; simpl; [auto | intros [_ H]; auto]. Qed.

Lemma replace_allChars p s pat :
  allChars p s -> allChars p (Str.replace s pat "").
Proof.
  induction s as [|c s IH]; intros H.
  - simpl. destruct (Str.startsWith pat "") as [r|] eqn:E; [|exact I].
    apply startsWith_Some in E. destruct pat; [|discriminate].
    simpl in E. now subst r.
  - simpl Str.replace.
    destruct (Str.startsWith pat (String c s)) as [r|] eqn:E.
    + apply startsWith_Some in E. simpl. rewrite E in H.
      now apply allChars_app_r in H.
    + destruct H as [Hc Hs]. simpl. auto.
Qed.

Lemma plain_head s :
  allChars keepChar s ->
  Str.trimStart s = s /\ splitSign s = (false, s).
Proof.
  destruct s as [|c s]; [now split|].
  intros [Hc _]. apply keepChar_plain in Hc as (Hsp & Hplus & Hminus).
  split.
  - unfold Str.trimStart. simpl. now rewrite Hsp.
  - unfold splitSign.
    destruct c as [[] [] [] [] [] [] [] []]; try reflexivity;
      congruence.
Qed.

Lemma digitsValue_nonneg s : forall acc,
  (0 <= acc)%Z -> (0 <= Str.digitsValue acc s)%Z.
Proof.
  induction s as [|c s IH]; intros acc H; [exact H|].
  cbn [Str.digitsValue]. apply IH.
  pose proof (Nat2Z.is_nonneg (Str.code c - 48)). lia.
Qed.

Lemma div_core_nonneg m1 e1 m2 e2 :
  (0 <= fst (fst (SFdiv_core_binary prec emax (Zpos m1) e1 (Zpos m2) e2)))%Z.
Proof.
  unfold SFdiv_core_binary.
  set (s := (e1 - e2 - _)%Z).
  set (m' := match s with
             | Zpos _ => Z.shiftl (Zpos m1) s
             | Z0 => Zpos m1
             | Zneg _ => 0%Z
             end).
  assert (Hm : (0 <= m')%Z).
  { unfold m'. destruct s; try lia. apply Z.shiftl_nonneg. lia. }
  pose proof (Z.div_pos m' (Zpos m2) Hm ltac:(lia)) as Hq.
  unfold Z.div in Hq. destruct (Z.div_eucl m' (Zpos m2)) as [q r].
  exact Hq.
Qed.

Lemma ofDecimal_NonNegative m e :
  (0 <= m)%Z -> NonNegative (ofDecimal false m e).
Proof.
  intros Hm. unfold ofDecimal. destruct m as [|p|p]; [reflexivity | | lia].
  destruct e as [|q|k].
  - apply binary_normalize_NonNegative. simpl. lia.
  - apply binary_normalize_NonNegative. cbn [cond_Zopp].
    apply Z.mul_nonneg_nonneg; [lia | apply Z.pow_nonneg; lia].
  - unfold SFdiv.
    pose proof (div_core_nonneg p 0 (Pos.pow 10 k) 0) as H.
    destruct (SFdiv_core_binary prec emax _ 0 _ 0) as [[mz ez] lz].
    simpl in H. exact (binary_round_aux_sign false mz ez lz H).
Qed.

Lemma parseFloat_plain s :
  allChars keepChar s ->
  isNaN (parseFloat s) = true \/ NonNegative (parseFloat s).
Proof.
  intros H. unfold parseFloat.
  destruct (plain_head s H) as [-> ->].
  destruct (Str.startsWith "Infinity" s); [right; reflexivity|].
  destruct (Str.span Str.isDigit s) as [ip r1].
  destruct (match r1 with
            | String "." r => Str.span Str.isDigit r
            | _ => (EmptyString, r1)
            end) as [fp r2].
  destruct (Str.isEmpty ip && Str.isEmpty fp); [left; reflexivity|].
  right. apply ofDecimal_NonNegative, digitsValue_nonneg. lia.
Qed.

Lemma parseInt10_plain s :
  allChars keepChar s ->
  isNaN (parseInt10 s) = true \/ NonNegative (parseInt10 s).
Proof.
  intros H. unfold parseInt10.
  destruct (plain_head s H) as [-> ->].
  destruct (Str.span Str.isDigit s) as [ds r].
  destruct (Str.isEmpty ds); [left; reflexivity|].
  right. apply binary_normalize_NonNegative. cbn [cond_Zopp].
  apply digitsValue_nonneg. lia.
Qed.

Lemma scaled_NonNegative s suffix factor m e :
  ofZ factor = S754_finite false m e ->
  allChars keepChar s ->
  NonNegative (scaled s suffix factor).
Proof.
  intros Hf H. unfold scaled.
  destruct (parseFloat_plain (Str.replace s suffix "")
              (replace_allChars _ _ _ H)) as [Hn|Hp].
  - now rewrite Hn.
  - destruct (isNaN _); [reflexivity|].
    rewrite Hf. now apply round_NonNegative, mul_NonNegative.
Qed.

Lemma parse_NonNegative (text : string) :
  NonNegative (parseLikeCountText text).
Proof.
  unfold parseLikeCountText.
  pose proof (filter_allChars keepChar text) as H.
  destruct (Str.includes _ "K");
    [eapply scaled_NonNegative; [vm_compute; reflexivity | exact H]|].
  destruct (Str.includes _ "M");
    [eapply scaled_NonNegative; [vm_compute; reflexivity | exact H]|].
  destruct (Str.includes _ "B");
    [eapply scaled_NonNegative; [vm_compute; reflexivity | exact H]|].
  destruct (parseInt10_plain _ H) as [Hn|Hp].
  - now rewrite Hn.
  - destruct (isNaN _); [reflexivity | exact Hp].
Qed.

(** X1.  Whatever the text, [parseLikeCountText] returns a number that is
    neither [NaN] nor negative: [+0], a positive finite number or
    [+Infinity]. *)
Theorem parseLikeCountText_never_NaN_nor_negative (text : string) :
  NonNegative (parseLikeCountText text).
Proof. apply parse_NonNegative. Qed.

(** X2.  The test [likeCount > 0] that every strategy applies to a parsed
    text fails exactly when the text parses to [0]: a candidate is passed
    over only in that case, and a candidate that is taken is the parsed
    number itself. *)
Theorem candidate_rejected_iff_zero (text : string) :
  (positiveCount text = None <-> parseLikeCountText text = zero)
  /\ (forall n, positiveCount text = Some n ->
                n = parseLikeCountText text /\ n <> zero).
Proof.
  pose proof (NonNegative_not_positive _ (parse_NonNegative text)) as H.
  unfold positiveCount.
  destruct (ltb zero (parseLikeCountText text)) eqn:E; split.
  - split; [discriminate|]. intros Hz. apply H in Hz. congruence.
  - intros n [= <-]. split; [reflexivity|].
    intros Hz. apply H in Hz. congruence.
  - split; [intros _; now apply H | reflexivity].
  - discriminate.
Qed.

Lemma includes_absent p s c :
  allChars p s -> p c = false -> Str.includes s (String c "") = false.
Proof.
  intros Hs Hc. induction s as [|a s IH]; [reflexivity|].
  destruct Hs as [Ha Hs]. simpl.
  destruct (Ascii.eqb c a) eqn:E; [|now apply IH].
  apply Ascii.eqb_eq in E. congruence.
Qed.

Lemma allChars_impl (p q : ascii -> bool) s :
  (forall c, p c = true -> q c = true) -> allChars p s -> allChars q s.
Proof.
  intros Hpq. induction s as [|c s IH]; simpl; [auto|].
  intros [Hc Hs]. auto.
Qed.

Lemma allChars_app p a b :
  allChars p a -> allChars p b -> allChars p (a ++ b).
Proof. induction a as [|c a IH]; simpl; [auto | intros [? ?] ?; auto]. Qed.

Lemma filter_all p s : allChars p s -> Str.filter p s = s.
Proof.
  induction s as [|c s IH]; simpl; [reflexivity|].
  intros [Hc Hs]. now rewrite Hc, IH.
Qed.

Lemma isDigit_keepChar c : Str.isDigit c = true -> keepChar c = true.
Proof. unfold keepChar, Str.isWord. now intros ->. Qed.

(** The leading digits of a text of word characters and dots decide
    [parseInt(text, 10)]. *)
Lemma parseInt10_leading ds rest :
  allChars Str.isDigit ds -> endsGroup Str.isDigit rest ->
  allChars keepChar (ds ++ rest) ->
  parseInt10 (ds ++ rest)
  = if Str.isEmpty ds then NaN else ofZ (Str.digitsValue 0 ds).
Proof.
  intros Hd Hr Hk. unfold parseInt10.
  destruct (plain_head _ Hk) as [-> ->].
  rewrite span_unique by assumption.
  destruct (Str.isEmpty ds); reflexivity.
Qed.

Lemma parse_unsuffixed s :
  allChars keepChar s ->
  Str.includes s "K" = false -> Str.includes s "M" = false ->
  Str.includes s "B" = false ->
  parseLikeCountText s
  = if isNaN (parseInt10 s) then zero else parseInt10 s.
Proof.
  intros Hk HK HM HB. unfold parseLikeCountText.
  rewrite (filter_all _ _ Hk), HK, HM, HB. reflexivity.
Qed.

Lemma append_empty_r s : (s ++ "")%string = s.
Proof. induction s as [|c s IH]; simpl; [reflexivity | now rewrite IH]. Qed.

Lemma ofZ_not_NaN z : (0 <= z)%Z -> isNaN (ofZ z) = false.
Proof.
  intros H. apply ofZ_NonNegative in H. now destruct (ofZ z).
Qed.

Lemma filter_digitOrDropped text :
  allChars digitOrDropped text ->
  Str.filter keepChar text = Str.filter Str.isDigit text.
Proof.
  induction text as [|c s IH]; simpl; [reflexivity|].
  unfold digitOrDropped at 1. intros [Hc Hs].
  destruct (Str.isDigit c) eqn:E.
  - now rewrite (isDigit_keepChar c E), IH.
  - simpl in Hc. apply negb_true_iff in Hc. now rewrite Hc, IH.
Qed.

Lemma suffix_not_digit :
  Str.isDigit "K" = false /\ Str.isDigit "M" = false
  /\ Str.isDigit "B" = false.
Proof. repeat split. Qed.

(** X3.  A text made of digits and of characters the parser drops (commas,
    spaces, signs and any other character that is neither a word character
    nor a dot), with at least one digit, parses to the number its digits
    spell: grouping separators and signs have no effect. *)
Theorem parse_grouped_digits (text : string) :
  allChars digitOrDropped text ->
  Str.filter Str.isDigit text <> EmptyString ->
  parseLikeCountText text
  = ofZ (Str.digitsValue 0 (Str.filter Str.isDigit text)).
Proof.
  intros Hall Hne. unfold parseLikeCountText.
  rewrite (filter_digitOrDropped text Hall).
  set (ds := Str.filter Str.isDigit text) in *.
  assert (Hd : allChars Str.isDigit ds) by apply filter_allChars.
  destruct suffix_not_digit as (HK & HM & HB).
  rewrite (includes_absent _ _ _ Hd HK), (includes_absent _ _ _ Hd HM),
    (includes_absent _ _ _ Hd HB).
  pose proof (parseInt10_leading ds "" Hd I) as P.
  rewrite append_empty_r in P.
  rewrite P by (apply (allChars_impl Str.isDigit); auto using isDigit_keepChar).
  apply isEmpty_false in Hne. rewrite Hne.
  rewrite ofZ_not_NaN; [reflexivity|].
  apply digitsValue_nonneg. lia.
Qed.

Lemma parse_grouped_digits_witness :
  (allChars digitOrDropped "1,234"
   /\ Str.filter Str.isDigit "1,234" <> EmptyString)
  /\ parseLikeCountText "1,234" = ofZ 1234.
Proof.
  assert (A : allChars digitOrDropped "1,234") by (vm_compute; tauto).
  assert (B : Str.filter Str.isDigit "1,234" <> EmptyString)
    by (vm_compute; discriminate).
  split; [split; assumption|].
  exact (parse_grouped_digits "1,234" A B).
Defined.

(** X4.  Without a suffix [K], [M] or [B] the fraction of a decimal text is
    dropped, not rounded: digits, a dot and digits parse to the number of
    the digits before the dot, and to [0] when no digit stands before the
    dot. *)
Theorem parse_fraction_without_suffix (ds fs : string) :
  allChars Str.isDigit ds -> allChars Str.isDigit fs ->
  parseLikeCountText (ds ++ String "." fs)
  = if Str.isEmpty ds then zero else ofZ (Str.digitsValue 0 ds).
Proof.
  intros Hd Hf.
  assert (Hall : allChars digitOrDot (ds ++ String "." fs)).
  { apply allChars_app.
    - apply (allChars_impl Str.isDigit); [|assumption].
      unfold digitOrDot. now intros c ->.
    - split; [reflexivity|].
      apply (allChars_impl Str.isDigit); [|assumption].
      unfold digitOrDot. now intros c ->. }
  assert (Hk : allChars keepChar (ds ++ String "." fs)).
  { apply (allChars_impl digitOrDot); [|assumption].
    unfold digitOrDot, keepChar, Str.isWord. intros c H.
    destruct (Str.isDigit c); [reflexivity|]. simpl in *.
    rewrite H. now rewrite orb_true_r. }
  rewrite parse_unsuffixed;
    try (apply (includes_absent digitOrDot); [assumption | reflexivity]);
    [|exact Hk].
  rewrite (parseInt10_leading ds (String "." fs) Hd eq_refl Hk).
  destruct (Str.isEmpty ds); [reflexivity|].
  rewrite ofZ_not_NaN; [reflexivity|].
  apply digitsValue_nonneg. lia.
Qed.

Lemma parse_fraction_without_suffix_witness :
  (allChars Str.isDigit "4" /\ allChars Str.isDigit "7")
  /\ parseLikeCountText "4.7" = ofZ 4.
Proof.
  assert (A : allChars Str.isDigit "4") by (vm_compute; tauto).
  assert (B : allChars Str.isDigit "7") by (vm_compute; tauto).
  split; [split; assumption|].
  exact (parse_fraction_without_suffix "4" "7" A B).
Defined.

(** ** Identifier extractors *)

Lemma matchVideoAt_skip c s :
  c <> "y"%char -> matchVideoAt (String c s) = None.
Proof.
  intros H.
  assert (E : Ascii.eqb "y" c = false) by (apply Ascii.eqb_neq; congruence).
  unfold matchVideoAt, matchGroupAfter.
  change (Str.startsWith "youtube.com/watch?v=" (String c s))
    with (if Ascii.eqb "y" c
          then Str.startsWith "outube.com/watch?v=" s else None).
  change (Str.startsWith "youtu.be/" (String c s))
    with (if Ascii.eqb "y" c then Str.startsWith "outu.be/" s else None).
  now rewrite E.
Qed.

Lemma extractVideoId_at_shape s ident :
  VideoShapeAt s ident -> extractVideoId s = Some ident.
Proof.
  intros H. apply matchVideoAt_Some in H.
  destruct s; cbn [extractVideoId]; now rewrite H.
Qed.

(** X5.  Round trip on the canonical addresses: for a non-empty identifier
    without [&], newline, [?] and [#], followed by nothing or by one of these
    characters, [extractVideoId] gives the identifier back from
    [https://www.youtube.com/watch?v=<id>...] and from
    [https://youtu.be/<id>...]. *)
Theorem extractVideoId_round_trip (ident rest : string) :
  ident <> EmptyString ->
  allChars isIdChar ident ->
  endsGroup isIdChar rest ->
  extractVideoId ("https://www.youtube.com/watch?v=" ++ ident ++ rest)
  = Some ident
  /\ extractVideoId ("https://youtu.be/" ++ ident ++ rest) = Some ident.
Proof.
  intros Hne Hid Hrest. split.
  - assert (M : matchVideoAt ("youtube.com/watch?v=" ++ ident ++ rest)
                = Some ident).
    { apply matchVideoAt_Some, video_shape.
      apply (shapeAt _ _ _ _ "youtube.com/watch?v=" rest); auto.
      now left. }
    cbn [append] in M. cbn [append]. cbn [extractVideoId].
    repeat (rewrite matchVideoAt_skip by discriminate).
    now rewrite M.
  - assert (M : matchVideoAt ("youtu.be/" ++ ident ++ rest) = Some ident).
    { apply matchVideoAt_Some, video_shape.
      apply (shapeAt _ _ _ _ "youtu.be/" rest); auto.
      right. now left. }
    cbn [append] in M. cbn [append]. cbn [extractVideoId].
    repeat (rewrite matchVideoAt_skip by discriminate).
    now rewrite M.
Qed.

Lemma extractVideoId_round_trip_witness :
  ("abc123"%string <> EmptyString
   /\ allChars isIdChar "abc123" /\ endsGroup isIdChar "&t=5")
  /\ extractVideoId "https://www.youtube.com/watch?v=abc123&t=5"
     = Some "abc123"%string.
Proof.
  assert (A : "abc123"%string <> EmptyString) by discriminate.
  assert (B : allChars isIdChar "abc123") by (vm_compute; tauto).
  assert (C : endsGroup isIdChar "&t=5") by reflexivity.
  split; [repeat split; assumption|].
  exact (proj1 (extractVideoId_round_trip "abc123" "&t=5" A B C)).
Defined.

(** ** Page analyzer *)

Section AnalyzerMore.

Variable URL_pathname : string -> Exc string.
Variable now : Z.

Lemma firstPattern_nonempty ps pathname ident :
  firstPattern ps pathname = Some ident -> ident <> EmptyString.
Proof.
  induction ps as [|p ps IH]; simpl; [discriminate|].
  destruct (matchGroupAfter isSegmentChar p pathname) as [g|] eqn:E;
    [|exact IH].
  intros [= <-]. apply matchGroupAfter_Some in E as (rest & _ & Hne & _).
  exact Hne.
Qed.

Lemma analyze_cases w d url :
  match extractVideoId url, URL_pathname url with
  | Some videoId, Return pathname =>
      exists c,
        analyzeYouTubePage URL_pathname now w d url
        = {| success := true; data := Some c; error := None |}
        /\ channelId c = match firstPattern patterns pathname with
                         | Some channel => channel
                         | None => videoId
                         end
        /\ channelName c
           = logicalOr (extractChannelName w d) (VStr "Unknown Channel")
        /\ totalLikes c = extractLikeCount w d
        /\ videoCount c = 1
        /\ videos c
           = [ {| id := videoId;
                  title := Str.replace (DOM.title d) " - YouTube" "";
                  videoUrl := url;
                  likeCount := extractLikeCount w d |} ]
        /\ lastUpdated c = now
  | Some _, Throw message =>
      analyzeYouTubePage URL_pathname now w d url = failure message
  | None, _ =>
      analyzeYouTubePage URL_pathname now w d url
      = failure "Not a video page"
  end.
Proof.
  unfold analyzeYouTubePage.
  destruct (extractVideoId url) as [videoId|] eqn:E.
  - rewrite (run_video URL_pathname now w d url videoId E).
    unfold extractChannelId, bindExc. cbn [snd].
    destruct (URL_pathname url) as [pathname|message]; [|reflexivity].
    eexists. split; [reflexivity|]. cbn [channelId channelName totalLikes
      videoCount videos lastUpdated].
    repeat split. unfold orElse.
    destruct (firstPattern patterns pathname) as [channel|] eqn:F;
      [|reflexivity].
    apply firstPattern_nonempty, isEmpty_false in F. now rewrite F.
  - now rewrite (run_not_video URL_pathname now w d url E).
Qed.

(** X6.  The analysis succeeds exactly when the address holds a video
    identifier and the platform can parse the address; what is found on
    the page never makes it fail. *)
Theorem analysis_succeeds_iff w d url :
  success (analyzeYouTubePage URL_pathname now w d url) = true
  <-> (exists videoId, extractVideoId url = Some videoId)
      /\ (exists pathname, URL_pathname url = Return pathname).
Proof.
  pose proof (analyze_cases w d url) as H.
  destruct (extractVideoId url) as [videoId|];
    [destruct (URL_pathname url) as [pathname|message]|].
  - destruct H as (c & -> & _). split; eauto.
  - rewrite H. split; [discriminate|]. intros (_ & p & Hp). discriminate.
  - rewrite H. split; [discriminate|]. intros ((v & Hv) & _). discriminate.
Qed.

(** X7.  The aggregate of a successful analysis has a [channelId] and a
    [channelName] that are not empty, the name being a truthy value; its
    [channelId] is the channel segment of the path when the path has one of
    the three channel shapes, and the video identifier otherwise. *)
Theorem analysis_identifies_channel w d url c :
  analyzeYouTubePage URL_pathname now w d url
  = {| success := true; data := Some c; error := None |} ->
  channelId c <> EmptyString
  /\ channelName c <> VStr EmptyString
  /\ truthy (channelName c) = true
  /\ exists videoId pathname,
       extractVideoId url = Some videoId
       /\ URL_pathname url = Return pathname
       /\ (forall channel,
             ChannelShape pathname channel -> channelId c = channel)
       /\ ((forall channel, ~ ChannelShape pathname channel) ->
           channelId c = videoId).
Proof.
  intros Hc. pose proof (analyze_channelName _ _ _ _ _ _ Hc) as Hname.
  pose proof (analyze_cases w d url) as H.
  destruct (extractVideoId url) as [videoId|] eqn:E;
    [destruct (URL_pathname url) as [pathname|message]|];
    try (rewrite H in Hc; discriminate).
  destruct H as (c' & Hc' & Hid & _). rewrite Hc' in Hc.
  injection Hc as <-.
  split; [|split; [|split; [exact Hname|]]].
  - rewrite Hid.
    destruct (firstPattern patterns pathname) as [channel|] eqn:F.
    + now apply firstPattern_nonempty in F.
    + now apply extractVideoId_nonempty in E.
  - intros Heq. rewrite Heq in Hname. discriminate.
  - exists videoId, pathname. repeat split.
    + intros channel Hs. apply firstPattern_Some in Hs.
      now rewrite Hid, Hs.
    + intros Hnone. apply firstPattern_None in Hnone.
      now rewrite Hid, Hnone.
Qed.

End AnalyzerMore.

Lemma analysis_identifies_channel_witness :
  analyzeYouTubePage SimpleURL.pathname 7 Examples.emptyWindow
    Examples.fiveDocument Examples.watchUrl
  = {| success := true; data := Some Examples.analysed; error := None |}
  /\ channelId Examples.analysed <> EmptyString.
Proof.
  assert (A : analyzeYouTubePage SimpleURL.pathname 7 Examples.emptyWindow
                Examples.fiveDocument Examples.watchUrl
              = {| success := true; data := Some Examples.analysed;
                   error := None |}) by (vm_compute; reflexivity).
  split; [exact A|].
  exact (proj1 (analysis_identifies_channel SimpleURL.pathname 7
                  Examples.emptyWindow Examples.fiveDocument
                  Examples.watchUrl Examples.analysed A)).
Defined.

(** ** Channel name *)

Lemma catchNull_Some {A} (m : Exc (option A)) x :
  catchNull m = Some x -> m = Return (Some x).
Proof. destruct m as [[y|]|]; simpl; congruence. Qed.

Lemma firstTruthy_cases {A} (f : A -> value) xs :
  firstTruthy f xs = VNull \/ truthy (firstTruthy f xs) = true.
Proof.
  induction xs as [|x xs IH]; simpl; [now left|].
  destruct (truthy (f x)) eqn:E; [now right|exact IH].
Qed.

Lemma fromData_cases h data :
  extractChannelNameFromYtInitialData h data = VNull
  \/ truthy (extractChannelNameFromYtInitialData h data) = true.
Proof.
  unfold extractChannelNameFromYtInitialData.
  destruct (truthy _); [|now left].
  destruct (iterate h _) as [cs|]; simpl; [|now left].
  apply firstTruthy_cases.
Qed.






(** ** The recursive key search *)

Lemma searchEntries_mono (r1 r2 : value -> outcome (option number)) es res :
  (forall v x, r1 v = Done x -> r2 v = Done x) ->
  searchEntries r1 es = Done res -> searchEntries r2 es = Done res.
Proof.
  intros Hr. induction es as [|[key v] es IH]; simpl; [auto|].
  destruct (likeEntry key v); [auto|].
  destruct v; auto.
  destruct (r1 (VRef a)) as [[x|]|] eqn:E; try discriminate.
  - rewrite (Hr _ _ E). auto.
  - rewrite (Hr _ _ E). auto.
Qed.

Lemma search_mono_step h : forall fuel obj res,
  searchForLikeCount fuel h obj = Done res ->
  searchForLikeCount (S fuel) h obj = Done res.
Proof.
  induction fuel as [|fuel IH]; intros obj res H; [discriminate|].
  destruct obj; try exact H.
  change (searchEntries (searchForLikeCount (S fuel) h) (entries (h a))
          = Done res).
  change (searchEntries (searchForLikeCount fuel h) (entries (h a))
          = Done res) in H.
  eapply searchEntries_mono; [|exact H]. intros v x. apply IH.
Qed.

Lemma search_mono h obj res fuel fuel' :
  fuel <= fuel' ->
  searchForLikeCount fuel h obj = Done res ->
  searchForLikeCount fuel' h obj = Done res.
Proof.
  induction 1 as [|fuel' _ IH]; [auto|].
  intros H. now apply search_mono_step, IH.
Qed.

Lemma likeEntry_positive key v n :
  likeEntry key v = Some n -> ltb zero n = true.
Proof.
  unfold likeEntry. destruct (likeKey key); [|discriminate].
  destruct v; try discriminate. apply positiveCount_positive.
Qed.

Lemma searchEntries_positive (r : value -> outcome (option number)) es n :
  (forall v x, r v = Done (Some x) -> ltb zero x = true) ->
  searchEntries r es = Done (Some n) -> ltb zero n = true.
Proof.
  intros Hr. induction es as [|[key v] es IH]; simpl; [discriminate|].
  destruct (likeEntry key v) eqn:L.
  - intros [= <-]. eapply likeEntry_positive; eassumption.
  - destruct v; auto.
    destruct (r (VRef a)) as [[x|]|] eqn:E; try discriminate; auto.
    intros [= <-]. eapply Hr; eassumption.
Qed.

Lemma search_positive h : forall fuel obj n,
  searchForLikeCount fuel h obj = Done (Some n) -> ltb zero n = true.
Proof.
  induction fuel as [|fuel IH]; intros obj n H; [discriminate|].
  destruct obj; try discriminate.
  change (searchEntries (searchForLikeCount fuel h) (entries (h a))
          = Done (Some n)) in H.
  eapply searchEntries_positive; [|exact H]. intros v x. apply IH.
Qed.

(** X9.  The result of [searchForLikeCount] does not depend on how deep the
    recursion is allowed to go once it returns at all: a walk that returns
    within some depth returns the same result within any larger depth, two
    walks that return agree, and a count that is found is [> 0]. *)
Theorem search_result_is_stable (h : heap) (obj : value) :
  (forall fuel fuel' res,
     fuel <= fuel' ->
     searchForLikeCount fuel h obj = Done res ->
     searchForLikeCount fuel' h obj = Done res)
  /\ (forall fuel fuel' res res',
        searchForLikeCount fuel h obj = Done res ->
        searchForLikeCount fuel' h obj = Done res' ->
        res = res')
  /\ (forall fuel n,
        searchForLikeCount fuel h obj = Done (Some n) -> ltb zero n = true).
Proof.
  split; [|split].
  - intros fuel fuel' res Hle. now apply search_mono.
  - intros fuel fuel' res res' H H'.
    destruct (Nat.le_ge_cases fuel fuel') as [Hle|Hle].
    + rewrite (search_mono _ _ _ _ _ Hle H) in H'. congruence.
    + rewrite (search_mono _ _ _ _ _ Hle H') in H. congruence.
  - intros fuel n. apply search_positive.
Qed.

(** ** The known-shape strategy *)

Lemma scanPrimaryInfo_positive h cs n :
  scanPrimaryInfo h cs = Return (Some n) -> ltb zero n = true.
Proof.
  induction cs as [|content cs IH]; [discriminate|].
  cbn [scanPrimaryInfo]. cbv zeta.
  destruct (truthy (get h content "videoPrimaryInfoRenderer")); [|exact IH].
  match goal with |- context [truthy ?t] => generalize t end.
  intros likeText.
  destruct (truthy likeText); [|exact IH].
  destruct likeText; try discriminate.
  destruct (positiveCount s) eqn:P; [|exact IH].
  intros [= <-]. now apply positiveCount_positive in P.
Qed.

(** X10.  [extractFromYtInitialData] treats a blob that is not an object
    (undefined, null, a boolean, a number, a string) as holding nothing:
    it returns absent.  A count it returns is [> 0]. *)
Theorem state_strategy_edges (h : heap) (data : value) :
  ((forall a, data <> VRef a) -> extractFromYtInitialData h data = None)
  /\ (forall n, extractFromYtInitialData h data = Some n ->
                ltb zero n = true).
Proof.
  split.
  - intros H. destruct data; try reflexivity. now elim (H a).
  - intros n H. unfold extractFromYtInitialData in H.
    apply catchNull_Some in H.
    destruct (truthy _); [|discriminate].
    destruct (iterate h _) as [cs|]; simpl in H; [|discriminate].
    now apply scanPrimaryInfo_positive in H.
Qed.

(** ** The like count found in the page structure *)

Lemma node_nested_ind (P : node -> Prop) :
  (forall s, P (Text s)) ->
  (forall t a kids, Forall P kids -> P (Element t a kids)) ->
  forall n, P n.
Proof.
  intros HT HE. fix IH 1. intros [s|t a kids]; [apply HT|].
  apply HE. induction kids as [|k kids IHk]; constructor;
    [apply IH | exact IHk].
Qed.

Lemma elementsFrom_Element anc t a kids :
  elementsFrom anc (Element t a kids)
  = (Element t a kids, anc)
      :: flat_map (elementsFrom (Element t a kids :: anc)) kids.
Proof.
  reflexivity.
Qed.

Lemma elements_closed n : forall anc e,
  In e (elementsFrom anc n) ->
  incl (elementsFrom (snd e) (fst e)) (elementsFrom anc n).
Proof.
  induction n as [s|t a kids IH] using node_nested_ind; intros anc e Hin.
  - destruct Hin.
  - rewrite elementsFrom_Element in Hin. destruct Hin as [<-|Hin].
    + apply incl_refl.
    + apply in_flat_map in Hin as (k & Hk & Hin).
      rewrite Forall_forall in IH. specialize (IH k Hk _ _ Hin).
      rewrite elementsFrom_Element. apply incl_tl.
      intros x Hx. apply in_flat_map. exists k. auto.
Qed.

Lemma descendants_in_document d e :
  In e (elementsFrom [] (documentElement d)) ->
  incl (descendants e) (elementsFrom [] (documentElement d)).
Proof.
  intros Hin x Hx. apply (elements_closed _ _ _ Hin).
  unfold descendants in Hx.
  destruct (elementsFrom (snd e) (fst e)); [destruct Hx | now right].
Qed.

Lemma In_firstn {A} (x : A) k l : In x (firstn k l) -> In x l.
Proof.
  revert l. induction k as [|k IH]; intros [|y l]; simpl; try tauto.
  intros [->|H]; auto.
Qed.

Lemma In_querySelectorAll d sel e :
  In e (querySelectorAll d sel) ->
  In e (elementsFrom [] (documentElement d)).
Proof. unfold querySelectorAll. intros H. now apply filter_In in H. Qed.

Lemma countIn_Some text n :
  countIn text = Some n ->
  matchesCount text = true /\ n = parseLikeCountText text
  /\ ltb zero n = true.
Proof.
  unfold countIn.
  destruct (negb (Str.isEmpty text)); [|discriminate]. simpl.
  destruct (matchesCount text); [|discriminate].
  unfold positiveCount.
  destruct (ltb zero (parseLikeCountText text)) eqn:E; [|discriminate].
  intros [= <-]. auto.
Qed.

(** X11.  The like-count locator returns either the sentinel [0] or the
    parsed text of an element of the page: when its result is not [0], some
    element of the document has a trimmed text that matches the bare count
    pattern (digits, commas and dots with an optional [K], [M] or [B]), the
    result is [parseLikeCountText] of that text, and it is [> 0]. *)
Theorem found_count_is_an_element_text (w : Window) (d : Document) :
  extractLikeCount w d = zero
  \/ exists e,
       In e (elementsFrom [] (documentElement d))
       /\ matchesCount (trimmedText e) = true
       /\ extractLikeCount w d = parseLikeCountText (trimmedText e)
       /\ ltb zero (extractLikeCount w d) = true.
Proof.
  unfold extractLikeCount, extractLikeCountFromDOM.
  destruct (fromLabelledElements d) as [n|] eqn:E1.
  { right. unfold fromLabelledElements in E1.
    apply firstSome_Some in E1 as (e & Hin & He).
    destruct (mentionsLike _); [|discriminate].
    apply countIn_Some in He as (Hm & Hn & Hp).
    exists e. eauto using In_querySelectorAll. }
  destruct (fromButtons d) as [n|] eqn:E2.
  { right. unfold fromButtons in E2.
    apply firstSome_Some in E2 as (b & Hb & He).
    destruct (mentionsLike _); [|discriminate].
    apply firstSome_Some in He as (e & Hin & He).
    apply countIn_Some in He as (Hm & Hn & Hp).
    exists e. repeat split; auto.
    apply In_firstn, In_querySelectorAll in Hb.
    apply (descendants_in_document d b Hb).
    unfold querySelectorAllIn in Hin. now apply filter_In in Hin. }
  destruct (fromNearbyText d) as [n|] eqn:E3; [|now left].
  right. unfold fromNearbyText in E3.
  apply firstSome_Some in E3 as (e & Hin & He).
  apply In_firstn, filter_In in Hin as (Hin & Hnear).
  unfold nearLikeText in Hnear.
  apply andb_true_iff in Hnear as (Hnear & _).
  apply andb_true_iff in Hnear as (Hnear & _).
  apply andb_true_iff in Hnear as (_ & Hm).
  unfold positiveCount in He.
  destruct (ltb zero (parseLikeCountText (trimmedText e))) eqn:E;
    [|discriminate].
  injection He as <-.
  exists e. eauto using In_querySelectorAll.
Qed.

(** ** Counts of the produced aggregates *)

Lemma In_set {V} (m : JSMap.t V) k v e :
  In e (JSMap.set m k v) -> In e m \/ e = (k, v).
Proof.
  induction m as [|[k' v'] m IH]; simpl.
  - intros [<-|[]]. now right.
  - destruct (String.eqb k' k) eqn:E.
    + apply String.eqb_eq in E. subst k'. intros [<-|H]; auto.
    + intros [<-|H]; auto. destruct (IH H); auto.
Qed.

Lemma In_setAll {V} (es : list (string * V)) : forall m e,
  In e (JSMap.setAll m es) -> In e m \/ In e es.
Proof.
  unfold JSMap.setAll.
  induction es as [|[k v] es IH]; simpl; intros m e H; [auto|].
  destruct (IH _ _ H) as [H'|H']; [|auto].
  destruct (In_set _ _ _ _ H'); auto.
Qed.

(** A merge holds no record that was in neither input. *)
Lemma merge_videos_from_inputs e n now v :
  In v (videos (mergeChannelData e n now)) ->
  In v (videos e) \/ In v (videos n).
Proof.
  rewrite videos_merge. intros H.
  apply In_values_get in H; [|apply mergedMap_Keyed].
  unfold mergedMap in H. apply In_setAll in H as [H|H].
  - apply In_setAll in H as [[]|H]. left.
    apply in_map_iff in H as (x & [= _ ->] & Hx). exact Hx.
  - right. apply in_map_iff in H as (x & [= _ ->] & Hx). exact Hx.
Qed.

Lemma total_NonNegative vs :
  Forall (fun v => NonNegative (likeCount v)) vs ->
  NonNegative (calculateTotalLikes vs).
Proof.
  unfold calculateTotalLikes.
  assert (G : forall acc, NonNegative acc ->
              Forall (fun v => NonNegative (likeCount v)) vs ->
              NonNegative
                (fold_left (fun total video => add total (likeCount video))
                   vs acc)).
  { induction vs as [|v vs IH]; simpl; intros acc Ha H; [exact Ha|].
    inversion H; subst. apply IH; [now apply add_NonNegative | assumption]. }
  apply G. reflexivity.
Qed.

Lemma extractLikeCount_NonNegative w d : NonNegative (extractLikeCount w d).
Proof.
  destruct (extractLikeCount_range w d) as [->|H]; [reflexivity|].
  destruct (extractLikeCount w d) as [s|s| |s m e]; try discriminate;
    destruct s; try discriminate; reflexivity.
Qed.

(** X12.  In every aggregate the system produces, no [likeCount] and no
    [totalLikes] is [NaN] or negative. *)
Theorem produced_counts_are_numbers
  (URL_pathname : string -> Exc string) (c : ChannelData) :
  Produced URL_pathname c ->
  NonNegative (totalLikes c)
  /\ Forall (fun v => NonNegative (likeCount v)) (videos c).
Proof.
  induction 1 as [now w d url c H | now e n _ [_ IHe] _ [_ IHn]].
  - apply analyze_success in H as (videoId & channel & _ & ->). simpl.
    split; [apply extractLikeCount_NonNegative|].
    repeat constructor. apply extractLikeCount_NonNegative.
  - assert (F : Forall (fun v => NonNegative (likeCount v))
                  (videos (mergeChannelData e n now))).
    { apply Forall_forall. intros v Hv.
      rewrite Forall_forall in IHe, IHn.
      destruct (merge_videos_from_inputs _ _ _ _ Hv); auto. }
    split; [|exact F]. now apply total_NonNegative.
Qed.

Lemma produced_counts_are_numbers_witness :
  Produced SimpleURL.pathname Examples.analysed
  /\ NonNegative (totalLikes Examples.analysed).
Proof.
  assert (P : Produced SimpleURL.pathname Examples.analysed).
  { apply (ProducedByAnalysis _ 7 Examples.emptyWindow Examples.fiveDocument
             Examples.watchUrl).
    vm_compute. reflexivity. }
  split; [exact P|].
  exact (proj1 (produced_counts_are_numbers SimpleURL.pathname _ P)).
Defined.

(** ** Insertion-ordered maps: keys and lookups after a run of [set] *)

Lemma existsb_eqb_In k ks :
  existsb (String.eqb k) ks = true <-> In k ks.
Proof.
  rewrite existsb_exists. split.
  - intros (x & Hx & E). apply String.eqb_eq in E. now subst.
  - intros H. exists k. split; [exact H | apply String.eqb_refl].
Qed.

Lemma existsb_eqb_not_In k ks :
  existsb (String.eqb k) ks = false <-> ~ In k ks.
Proof.
  rewrite <- existsb_eqb_In. destruct (existsb _ ks); split; congruence.
Qed.

Lemma appendNew_app ks xs ys :
  appendNew ks (xs ++ ys) = appendNew (appendNew ks xs) ys.
Proof. unfold appendNew. apply fold_left_app. Qed.

Lemma appendNew_cons ks x xs :
  appendNew ks (x :: xs)
  = appendNew (if existsb (String.eqb x) ks then ks else ks ++ [x]) xs.
Proof. reflexivity. Qed.

Lemma In_appendNew xs : forall ks x,
  In x (appendNew ks xs) <-> In x ks \/ In x xs.
Proof.
  induction xs as [|y xs IH]; intros ks x.
  - simpl. tauto.
  - rewrite appendNew_cons, IH. simpl.
    destruct (existsb (String.eqb y) ks) eqn:E.
    + apply existsb_eqb_In in E. split; [tauto|].
      intros [H|[<-|H]]; auto.
    + rewrite in_app_iff. simpl. tauto.
Qed.

Lemma appendNew_present ks xs : incl xs ks -> appendNew ks xs = ks.
Proof.
  induction xs as [|y xs IH]; intros H; [reflexivity|].
  rewrite appendNew_cons.
  assert (E : existsb (String.eqb y) ks = true)
    by (apply existsb_eqb_In, H; now left).
  rewrite E. apply IH. intros x Hx. apply H. now right.
Qed.

Lemma appendNew_snoc ks xs x :
  appendNew ks (xs ++ [x])
  = if existsb (String.eqb x) (appendNew ks xs)
    then appendNew ks xs else appendNew ks xs ++ [x].
Proof. rewrite appendNew_app. reflexivity. Qed.

Lemma appendNew_normalize ks xs :
  appendNew ks (appendNew [] xs) = appendNew ks xs.
Proof.
  induction xs as [|x xs IH] using rev_ind; [reflexivity|].
  rewrite (appendNew_snoc [] xs x), (appendNew_snoc ks xs x).
  destruct (existsb (String.eqb x) (appendNew [] xs)) eqn:E.
  - rewrite IH. apply existsb_eqb_In, In_appendNew in E as [[]|E].
    assert (E' : existsb (String.eqb x) (appendNew ks xs) = true)
      by (apply existsb_eqb_In, In_appendNew; now right).
    now rewrite E'.
  - rewrite appendNew_snoc, IH. reflexivity.
Qed.

Lemma appendNew_length xs : forall ks,
  List.length ks <= List.length (appendNew ks xs)
  /\ List.length (appendNew ks xs) <= List.length ks + List.length xs.
Proof.
  induction xs as [|x xs IH]; intros ks; [simpl; lia|].
  rewrite appendNew_cons.
  destruct (existsb (String.eqb x) ks).
  - specialize (IH ks). simpl. lia.
  - specialize (IH (ks ++ [x])). rewrite length_app in IH. simpl in *. lia.
Qed.

Lemma appendNew_fresh xs : forall ks,
  NoDup xs ->
  appendNew ks xs
  = ks ++ List.filter (fun x => negb (existsb (String.eqb x) ks)) xs.
Proof.
  induction xs as [|x xs IH]; intros ks Hnd.
  - simpl. now rewrite app_nil_r.
  - inversion Hnd as [|? ? Hx Hnd']; subst.
    rewrite appendNew_cons. cbn [List.filter].
    destruct (existsb (String.eqb x) ks) eqn:E; cbn [negb].
    + now apply IH.
    + rewrite IH by assumption. rewrite <- app_assoc. cbn [app].
      do 2 f_equal. apply filter_ext_in. intros y Hy.
      rewrite existsb_app. cbn [existsb].
      destruct (String.eqb y x) eqn:Eyx; [|now rewrite !orb_false_r].
      apply String.eqb_eq in Eyx. subst y. contradiction.
Qed.

Lemma appendNew_nil_NoDup xs : NoDup xs -> appendNew [] xs = xs.
Proof.
  intros Hnd. rewrite (appendNew_fresh xs [] Hnd). cbn [app].
  clear Hnd. induction xs as [|x xs IH]; [reflexivity|].
  simpl. f_equal. exact IH.
Qed.

Section MapAlgebra.

Context {V : Type}.
Implicit Types (m : JSMap.t V) (k : string) (v : V).

Lemma keys_set m k v :
  JSMap.keys (JSMap.set m k v)
  = if existsb (String.eqb k) (JSMap.keys m)
    then JSMap.keys m else JSMap.keys m ++ [k].
Proof.
  destruct (existsb (String.eqb k) (JSMap.keys m)) eqn:E.
  - apply keys_set_present. now apply existsb_eqb_In.
  - rewrite keys_set_absent by now apply existsb_eqb_not_In.
    unfold JSMap.keys. now rewrite map_app.
Qed.

Lemma keys_setAll es : forall m,
  JSMap.keys (JSMap.setAll m es) = appendNew (JSMap.keys m) (map fst es).
Proof.
  induction es as [|[k v] es IH]; intros m; [reflexivity|].
  change (JSMap.setAll m ((k, v) :: es))
    with (JSMap.setAll (JSMap.set m k v) es).
  rewrite IH, keys_set. reflexivity.
Qed.

Lemma get_app m1 m2 k :
  JSMap.get (m1 ++ m2) k
  = match JSMap.get m1 k with
    | Some v => Some v
    | None => JSMap.get m2 k
    end.
Proof.
  induction m1 as [|[k' v'] m1 IH]; simpl; [reflexivity|].
  destruct (String.eqb k' k); [reflexivity | exact IH].
Qed.

Lemma get_absent m k : ~ In k (JSMap.keys m) -> JSMap.get m k = None.
Proof.
  intros H. destruct (JSMap.get m k) as [v|] eqn:E; [|reflexivity].
  apply get_In in E. elim H. unfold JSMap.keys.
  change k with (fst (k, v)). now apply in_map.
Qed.

Lemma get_set m k v k' :
  JSMap.get (JSMap.set m k v) k'
  = if String.eqb k k' then Some v else JSMap.get m k'.
Proof.
  destruct (String.eqb k k') eqn:E.
  - apply String.eqb_eq in E. subst. apply get_set_same.
  - apply String.eqb_neq in E. apply get_set_other. congruence.
Qed.

(** Last write wins: the last entry of the run under the key, and the
    earlier value when the run has none. *)
Lemma get_setAll es : forall m k,
  JSMap.get (JSMap.setAll m es) k
  = match JSMap.get (List.rev es) k with
    | Some v => Some v
    | None => JSMap.get m k
    end.
Proof.
  induction es as [|[k0 v0] es IH]; intros m k; [reflexivity|].
  change (JSMap.setAll m ((k0, v0) :: es))
    with (JSMap.setAll (JSMap.set m k0 v0) es).
  rewrite IH. cbn [List.rev]. rewrite get_app, get_set.
  destruct (JSMap.get (List.rev es) k); [reflexivity|].
  simpl. destruct (String.eqb k0 k); reflexivity.
Qed.

Lemma keys_rev m : JSMap.keys (List.rev m) = List.rev (JSMap.keys m).
Proof. unfold JSMap.keys. apply map_rev. Qed.

Lemma get_rev m k :
  NoDup (JSMap.keys m) -> JSMap.get (List.rev m) k = JSMap.get m k.
Proof.
  intros Hnd.
  assert (Hnd' : NoDup (JSMap.keys (List.rev m)))
    by (rewrite keys_rev; now apply NoDup_rev).
  destruct (JSMap.get m k) as [v|] eqn:E.
  - apply In_get; [exact Hnd'|]. apply in_rev. rewrite rev_involutive.
    now apply get_In.
  - destruct (JSMap.get (List.rev m) k) as [v|] eqn:E'; [|reflexivity].
    apply get_In, in_rev in E'. rewrite (In_get _ _ _ Hnd E') in E.
    discriminate.
Qed.

(** Two maps with the same keys in the same order and the same lookups are
    the same map. *)
Lemma map_ext m1 : forall m2,
  NoDup (JSMap.keys m1) ->
  JSMap.keys m1 = JSMap.keys m2 ->
  (forall k, JSMap.get m1 k = JSMap.get m2 k) ->
  m1 = m2.
Proof.
  induction m1 as [|[k1 v1] m1 IH]; intros [|[k2 v2] m2] Hnd Hk Hg;
    try discriminate; [reflexivity|].
  simpl in Hk. injection Hk as <- Hk.
  inversion Hnd as [|? ? Hn Hnd']; subst.
  pose proof (Hg k1) as H1. simpl in H1. rewrite String.eqb_refl in H1.
  injection H1 as <-. f_equal. apply IH; [assumption..|].
  intros k. specialize (Hg k). simpl in Hg.
  destruct (String.eqb k1 k) eqn:E; [|exact Hg].
  apply String.eqb_eq in E. subst k.
  rewrite !get_absent; [reflexivity | now rewrite <- Hk | assumption].
Qed.

Lemma setAll_app m es1 es2 :
  JSMap.setAll m (es1 ++ es2) = JSMap.setAll (JSMap.setAll m es1) es2.
Proof. unfold JSMap.setAll. apply fold_left_app. Qed.

Lemma setAll_nil_NoDup m :
  NoDup (JSMap.keys m) -> JSMap.setAll [] m = m.
Proof.
  intros H. rewrite (setAll_fresh m []); [reflexivity | exact H].
Qed.

(** Setting the entries of a map built from a run is setting the run. *)
Lemma setAll_normalize m es :
  NoDup (JSMap.keys m) ->
  JSMap.setAll m (JSMap.setAll [] es) = JSMap.setAll m es.
Proof.
  intros Hnd. apply map_ext.
  - now apply keys_setAll_NoDup.
  - rewrite !keys_setAll. fold (JSMap.keys (JSMap.setAll [] es)).
    rewrite keys_setAll. apply appendNew_normalize.
  - intros k. rewrite !get_setAll.
    rewrite get_rev by (apply keys_setAll_NoDup; constructor).
    rewrite get_setAll. simpl.
    destruct (JSMap.get (List.rev es) k); reflexivity.
Qed.

(** Setting a run twice is setting it once. *)
Lemma setAll_twice m es :
  NoDup (JSMap.keys m) ->
  JSMap.setAll (JSMap.setAll m es) es = JSMap.setAll m es.
Proof.
  intros Hnd. apply map_ext.
  - now do 2 apply keys_setAll_NoDup.
  - rewrite !keys_setAll. apply appendNew_present.
    intros x Hx. apply In_appendNew. now right.
  - intros k. rewrite !get_setAll.
    destruct (JSMap.get (List.rev es) k); reflexivity.
Qed.

End MapAlgebra.

(** ** Aggregator: how merges compose *)

Lemma Keyed_entries m : Keyed m -> map entryOf (JSMap.values m) = m.
Proof.
  unfold Keyed, JSMap.values. induction 1 as [|[k v] m Hk _ IH];
    simpl in *; [reflexivity|].
  rewrite IH. unfold entryOf. now rewrite <- Hk.
Qed.

Lemma mergedMap_run e n :
  mergedMap e n
  = JSMap.setAll [] (map entryOf (videos e) ++ map entryOf (videos n)).
Proof. unfold mergedMap. now rewrite setAll_app. Qed.

Lemma entries_of_merge e n now :
  map entryOf (videos (mergeChannelData e n now)) = mergedMap e n.
Proof. rewrite videos_merge. apply Keyed_entries, mergedMap_Keyed. Qed.

Lemma setAll_nil_NoDup_keys (es : JSMap.t VideoData) :
  NoDup (JSMap.keys (JSMap.setAll [] es)).
Proof. apply keys_setAll_NoDup. constructor. Qed.

Lemma mergedMap_assoc a b c t1 t2 :
  mergedMap (mergeChannelData a b t1) c
  = mergedMap a (mergeChannelData b c t2).
Proof.
  unfold mergedMap. rewrite !entries_of_merge.
  rewrite (setAll_nil_NoDup (mergedMap a b)) by apply mergedMap_NoDup.
  rewrite (mergedMap_run b c).
  rewrite setAll_normalize by apply setAll_nil_NoDup_keys.
  rewrite setAll_app. reflexivity.
Qed.

Lemma merge_eq x y :
  channelId x = channelId y ->
  channelName x = channelName y ->
  videos x = videos y ->
  totalLikes x = calculateTotalLikes (videos x) ->
  totalLikes y = calculateTotalLikes (videos y) ->
  videoCount x = List.length (videos x) ->
  videoCount y = List.length (videos y) ->
  lastUpdated x = lastUpdated y ->
  x = y.
Proof.
  destruct x, y. simpl. intros. subst. reflexivity.
Qed.

(** X13.  Merging is associative: folding a third aggregate into the merge
    of two gives the same aggregate as folding the merge of the last two
    into the first, whatever the three aggregates hold (the time of the
    outer merge being the same). *)
Theorem merge_is_associative (a b c : ChannelData) (t1 t2 t : Z) :
  mergeChannelData (mergeChannelData a b t1) c t
  = mergeChannelData a (mergeChannelData b c t2) t.
Proof.
  apply merge_eq; try reflexivity.
  - rewrite !merge_channelName. unfold logicalOr.
    destruct (truthy (channelName c)) eqn:Ec; [|reflexivity].
    now rewrite Ec.
  - rewrite !videos_merge. f_equal. apply mergedMap_assoc.
Qed.

(** X14.  Merging the same incoming aggregate a second time changes
    nothing: the result is the aggregate of the first merge (at the time of
    the second). *)
Theorem merge_again_changes_nothing (e n : ChannelData) (t1 t : Z) :
  mergeChannelData (mergeChannelData e n t1) n t = mergeChannelData e n t.
Proof.
  apply merge_eq; try reflexivity.
  - rewrite !merge_channelName. unfold logicalOr.
    destruct (truthy (channelName n)); reflexivity.
  - rewrite !videos_merge. f_equal.
    unfold mergedMap at 1. rewrite entries_of_merge.
    rewrite (setAll_nil_NoDup (mergedMap e n)) by apply mergedMap_NoDup.
    unfold mergedMap. apply setAll_twice. apply setAll_nil_NoDup_keys.
Qed.

Lemma get_last (m : JSMap.t VideoData) k v :
  JSMap.get (List.rev m) k = Some v
  <-> exists before after,
        m = before ++ (k, v) :: after /\ ~ In k (JSMap.keys after).
Proof.
  split.
  - induction m as [|[k0 v0] m IH] using rev_ind; [discriminate|].
    rewrite rev_app_distr. simpl.
    destruct (String.eqb k0 k) eqn:E.
    + apply String.eqb_eq in E. subst k0. intros [= ->].
      exists m, []. split; [reflexivity | simpl; tauto].
    + intros H. destruct (IH H) as (before & after & -> & Hn).
      exists before, (after ++ [(k0, v0)]). split.
      * now rewrite <- app_assoc.
      * unfold JSMap.keys in *. rewrite map_app, in_app_iff. simpl.
        apply String.eqb_neq in E. intuition congruence.
  - intros (before & after & -> & Hn).
    rewrite rev_app_distr. cbn [List.rev]. rewrite <- app_assoc.
    rewrite get_app.
    rewrite get_absent
      by (rewrite keys_rev; intros H; now apply in_rev in H).
    simpl. now rewrite String.eqb_refl.
Qed.

Lemma get_last_video vs v :
  JSMap.get (List.rev (map entryOf vs)) (id v) = Some v
  <-> LastOfItsId vs v.
Proof.
  rewrite get_last. unfold LastOfItsId. split.
  - intros (before & after & H & Hn).
    apply map_eq_app in H as (b & r & -> & <- & H).
    apply map_eq_cons in H as (x & a & -> & Hx & <-).
    injection Hx as _ ->. exists b, a. split; [reflexivity|].
    unfold JSMap.keys in Hn. now rewrite entries_ids in Hn.
  - intros (before & after & -> & Hn).
    exists (map entryOf before), (map entryOf after).
    rewrite map_app. split; [reflexivity|].
    unfold JSMap.keys. now rewrite entries_ids.
Qed.

Lemma get_last_None vs k :
  JSMap.get (List.rev (map entryOf vs)) k = None
  <-> ~ In k (map id vs).
Proof.
  split.
  - intros H Hin. apply get_None_absent in H. apply H.
    rewrite keys_rev. apply -> in_rev. unfold JSMap.keys.
    now rewrite entries_ids.
  - intros H. apply get_absent. rewrite keys_rev. intros Hin.
    apply in_rev in Hin. unfold JSMap.keys in Hin.
    now rewrite entries_ids in Hin.
Qed.

Lemma get_last_key vs k v :
  JSMap.get (List.rev (map entryOf vs)) k = Some v -> k = id v.
Proof.
  intros H. apply get_In, in_rev in H.
  apply in_map_iff in H as (x & [= <- <-] & _). reflexivity.
Qed.

(** X15.  The records of a merge are exactly these: of each id present in
    the incoming list, the incoming record that stands last under it; and
    of each id absent from the incoming list, the existing record that
    stands last under it.  No id of either input is lost and no record is
    invented. *)
Theorem merge_membership (e n : ChannelData) (now : Z) (v : VideoData) :
  In v (videos (mergeChannelData e n now))
  <-> LastOfItsId (videos n) v
      \/ (LastOfItsId (videos e) v /\ ~ In (id v) (map id (videos n))).
Proof.
  rewrite videos_merge.
  assert (G : In v (JSMap.values (mergedMap e n))
              <-> JSMap.get (mergedMap e n) (id v) = Some v).
  { split.
    - intros H. apply In_get; [apply mergedMap_NoDup|].
      apply In_values_get; [apply mergedMap_Keyed | exact H].
    - intros H. apply get_In in H. unfold JSMap.values.
      change v with (snd (id v, v)). now apply in_map. }
  rewrite G. unfold mergedMap. rewrite !get_setAll. cbn [JSMap.get].
  assert (R : forall o : option VideoData,
            match o with Some x => Some x | None => None end = o)
    by (intros [x|]; reflexivity).
  rewrite R.
  destruct (JSMap.get (List.rev (map entryOf (videos n))) (id v))
    as [v'|] eqn:En.
  - split.
    + intros [= ->]. left. now apply get_last_video.
    + intros [H|[_ H]].
      * apply get_last_video in H. congruence.
      * apply get_last_None in H. congruence.
  - apply get_last_None in En. rewrite get_last_video. split.
    + auto.
    + intros [H|[H _]]; [|exact H].
      exfalso. apply En. destruct H as (b & a & -> & _).
      rewrite map_app, in_app_iff. simpl. auto.
Qed.

(** X16.  The number of videos of a merge is at most the numbers of the two
    inputs together, and it is at least the number of the existing videos
    when their ids are pairwise distinct: a merge never drops an existing
    video. *)
Theorem merge_count_bounds (e n : ChannelData) (now : Z) :
  videoCount (mergeChannelData e n now)
  <= List.length (videos e) + List.length (videos n)
  /\ (NoDup (map id (videos e)) ->
      List.length (videos e) <= videoCount (mergeChannelData e n now)).
Proof.
  change (videoCount (mergeChannelData e n now))
    with (List.length (JSMap.values (mergedMap e n))).
  assert (L : List.length (JSMap.values (mergedMap e n))
              = List.length
                  (appendNew (appendNew [] (map id (videos e)))
                     (map id (videos n)))).
  { unfold JSMap.values. rewrite length_map.
    rewrite <- (length_map fst). fold (JSMap.keys (mergedMap e n)).
    unfold mergedMap. rewrite !keys_setAll, !entries_ids. reflexivity. }
  rewrite L.
  pose proof (appendNew_length (map id (videos n))
                (appendNew [] (map id (videos e)))) as [H1 H2].
  pose proof (appendNew_length (map id (videos e)) []) as [_ H3].
  rewrite !length_map in *. simpl in H3. split; [lia|].
  intros Hnd. rewrite (appendNew_nil_NoDup _ Hnd) in *.
  rewrite length_map in H1. exact H1.
Qed.

Lemma merge_count_bounds_witness :
  NoDup (map id (videos (Examples.channelOf "N"
                           [Examples.video "a" 10; Examples.video "b" 3])))
  /\ 2 <= videoCount
            (mergeChannelData
               (Examples.channelOf "N"
                  [Examples.video "a" 10; Examples.video "b" 3])
               (Examples.channelOf "N" [Examples.video "a" 25]) 9).
Proof.
  assert (A : NoDup (map id (videos (Examples.channelOf "N"
                 [Examples.video "a" 10; Examples.video "b" 3])))).
  { simpl. repeat constructor; simpl; intuition discriminate. }
  split; [exact A|].
  exact (proj2 (merge_count_bounds _ _ 9) A).
Defined.

Lemma get_entries_id vs k v :
  JSMap.get (map entryOf vs) k = Some v -> k = id v.
Proof.
  intros H. apply get_In in H.
  apply in_map_iff in H as (x & [= <- <-] & _). reflexivity.
Qed.

Lemma supersededBy_id ns v : id (supersededBy ns v) = id v.
Proof.
  unfold supersededBy.
  destruct (JSMap.get (map entryOf ns) (id v)) as [v'|] eqn:E;
    [|reflexivity].
  apply get_entries_id in E. now symmetry.
Qed.

Lemma get_superseded ns es k :
  JSMap.get (map entryOf (map (supersededBy ns) es)) k
  = match JSMap.get (map entryOf es) k with
    | Some v => Some (supersededBy ns v)
    | None => None
    end.
Proof.
  induction es as [|v es IH]; [reflexivity|].
  cbn [map]. unfold entryOf at 1 3. cbn [JSMap.get].
  rewrite supersededBy_id.
  destruct (String.eqb (id v) k); [reflexivity | exact IH].
Qed.

Lemma get_new es ns k :
  ~ In k (map id es) ->
  JSMap.get (map entryOf (List.filter (isNewTo es) ns)) k
  = JSMap.get (map entryOf ns) k.
Proof.
  intros Hk. induction ns as [|v ns IH]; [reflexivity|].
  cbn [List.filter map]. unfold entryOf at 2. cbn [JSMap.get].
  destruct (String.eqb (id v) k) eqn:E.
  - apply String.eqb_eq in E.
    assert (N : isNewTo es v = true).
    { unfold isNewTo. apply negb_true_iff, existsb_eqb_not_In.
      now rewrite E. }
    rewrite N. cbn [map]. unfold entryOf at 1. cbn [JSMap.get].
    apply String.eqb_eq in E. now rewrite E.
  - destruct (isNewTo es v); [|exact IH].
    cbn [map]. unfold entryOf at 1. cbn [JSMap.get]. now rewrite E.
Qed.

Lemma ids_of_new es ns :
  map id (List.filter (isNewTo es) ns)
  = List.filter (fun x => negb (existsb (String.eqb x) (map id es)))
      (map id ns).
Proof.
  induction ns as [|v ns IH]; [reflexivity|].
  cbn [List.filter map]. unfold isNewTo at 1.
  destruct (negb _); cbn [map]; now rewrite IH.
Qed.

Lemma merge_order (e n : ChannelData) (now : Z) :
  NoDup (map id (videos e)) ->
  NoDup (map id (videos n)) ->
  videos (mergeChannelData e n now)
  = map (supersededBy (videos n)) (videos e)
    ++ List.filter (isNewTo (videos e)) (videos n).
Proof.
  intros He Hn. rewrite videos_merge.
  rewrite <- (entries_values (map _ _ ++ List.filter _ _)). f_equal.
  assert (KE : NoDup (JSMap.keys (map entryOf (videos e))))
    by (unfold JSMap.keys; now rewrite entries_ids).
  assert (KN : NoDup (JSMap.keys (map entryOf (videos n))))
    by (unfold JSMap.keys; now rewrite entries_ids).
  unfold mergedMap. rewrite (setAll_nil_NoDup _ KE).
  apply map_ext.
  - now apply keys_setAll_NoDup.
  - rewrite keys_setAll. unfold JSMap.keys.
    rewrite !entries_ids, map_app, map_map.
    rewrite (List.map_ext _ id (supersededBy_id (videos n))).
    rewrite ids_of_new. now apply appendNew_fresh.
  - intros k. rewrite get_setAll, (get_rev _ _ KN).
    rewrite map_app, get_app, get_superseded.
    destruct (JSMap.get (map entryOf (videos e)) k) as [v|] eqn:E.
    + apply get_entries_id in E. subst k. unfold supersededBy.
      destruct (JSMap.get (map entryOf (videos n)) (id v)); reflexivity.
    + apply get_None_absent in E. unfold JSMap.keys in E.
      rewrite entries_ids in E. rewrite (get_new _ _ _ E).
      destruct (JSMap.get (map entryOf (videos n)) k); reflexivity.
Qed.

(** X17.  When the ids of each input are pairwise distinct, the videos of a
    merge are the existing videos in their order, each replaced in place by
    the incoming record of the same id when there is one, followed by the
    incoming videos of new ids in their order. *)
Theorem merge_keeps_order (e n : ChannelData) (now : Z) :
  NoDup (map id (videos e)) ->
  NoDup (map id (videos n)) ->
  videos (mergeChannelData e n now)
  = map (supersededBy (videos n)) (videos e)
    ++ List.filter (isNewTo (videos e)) (videos n).
Proof. apply merge_order. Qed.

Lemma merge_keeps_order_witness :
  (NoDup (map id [Examples.video "a" 10; Examples.video "b" 3])
   /\ NoDup (map id [Examples.video "c" 1; Examples.video "a" 25]))
  /\ videos (mergeChannelData
               (Examples.channelOf "N"
                  [Examples.video "a" 10; Examples.video "b" 3])
               (Examples.channelOf "N"
                  [Examples.video "c" 1; Examples.video "a" 25]) 9)
     = [Examples.video "a" 25; Examples.video "b" 3; Examples.video "c" 1].
Proof.
  assert (A : NoDup (map id [Examples.video "a" 10; Examples.video "b" 3]))
    by (simpl; repeat constructor; simpl; intuition discriminate).
  assert (B : NoDup (map id [Examples.video "c" 1; Examples.video "a" 25]))
    by (simpl; repeat constructor; simpl; intuition discriminate).
  split; [split; assumption|].
  exact (merge_keeps_order
           (Examples.channelOf "N"
              [Examples.video "a" 10; Examples.video "b" 3])
           (Examples.channelOf "N"
              [Examples.video "c" 1; Examples.video "a" 25]) 9 A B).
Defined.

(** ** The navigation watcher *)

Lemma differs_same o : differs o o = false.
Proof. destruct o as [s|]; simpl; [now rewrite String.eqb_refl | auto]. Qed.

Lemma onMutation_Coherent st url :
  Coherent st -> Coherent (fst (onMutation st url)).
Proof.
  unfold onMutation, Coherent. intros H.
  destruct (_ || _); simpl; [reflexivity | exact H].
Qed.

Lemma onMutation_schedules st url :
  Coherent st ->
  snd (onMutation st url) = negb (String.eqb url (lastUrl st)).
Proof.
  unfold onMutation, Coherent. intros H.
  destruct (String.eqb url (lastUrl st)) eqn:E; simpl; [|reflexivity].
  apply String.eqb_eq in E. rewrite H, E, differs_same. reflexivity.
Qed.

Lemma onMutation_lastUrl st url : lastUrl (fst (onMutation st url)) = url.
Proof.
  unfold onMutation.
  destruct (String.eqb url (lastUrl st)) eqn:E; simpl.
  - apply String.eqb_eq in E. destruct (differs _ _); simpl; congruence.
  - reflexivity.
Qed.

Lemma last_nonempty {A} (x : A) l d d' :
  List.last (x :: l) d = List.last (x :: l) d'.
Proof.
  revert x. induction l as [|y l IH]; intros x; [reflexivity|].
  change (List.last (y :: l) d = List.last (y :: l) d'). apply IH.
Qed.

Lemma runWatcher_state urls : forall st,
  Coherent st ->
  Coherent (fst (runWatcher st urls))
  /\ lastUrl (fst (runWatcher st urls)) = List.last urls (lastUrl st).
Proof.
  induction urls as [|url urls IH]; intros st H; [now split|].
  cbn [runWatcher].
  pose proof (onMutation_Coherent st url H) as H'.
  pose proof (onMutation_lastUrl st url) as Hu.
  destruct (onMutation st url) as [st' scheduled]. simpl in H', Hu.
  destruct (IH st' H') as [IH1 IH2].
  destruct (runWatcher st' urls) as [final k]. simpl in *.
  split; [exact IH1|]. rewrite IH2, Hu.
  destruct urls as [|u urls]; [reflexivity|].
  change (List.last (url :: u :: urls) (lastUrl st))
    with (List.last (u :: urls) (lastUrl st)).
  apply last_nonempty.
Qed.

Lemma runWatcher_still st : forall k,
  Coherent st -> runWatcher st (repeat (lastUrl st) k) = (st, 0).
Proof.
  induction k as [|k IH]; intros H; [reflexivity|].
  cbn [repeat runWatcher].
  pose proof (onMutation_schedules st (lastUrl st) H) as Hs.
  rewrite String.eqb_refl in Hs.
  unfold onMutation in *. destruct (_ || _); [discriminate|].
  now rewrite (IH H).
Qed.

(** X18.  The navigation watcher of the content script, started at an
    address and run over any sequence of page mutations, schedules an
    analysis at the next mutation exactly when the address then differs
    from the address of the previous mutation (of the start when there was
    none); the comparison of the video identifiers never adds a trigger.
    Mutations that leave the address unchanged, however many, schedule no
    analysis and leave the watcher as it is. *)
Theorem watcher_schedules_on_address_change
  (href : string) (urls : list string) (url : string) (k : nat) :
  snd (onMutation (fst (runWatcher (startWatcher href) urls)) url)
  = negb (String.eqb url (List.last urls href))
  /\ runWatcher (fst (runWatcher (startWatcher href) urls))
       (repeat (List.last urls href) k)
     = (fst (runWatcher (startWatcher href) urls), 0).
Proof.
  destruct (runWatcher_state urls (startWatcher href) eq_refl) as [Hc Hu].
  simpl in Hu. split.
  - rewrite onMutation_schedules by exact Hc. now rewrite Hu.
  - rewrite <- Hu. now apply runWatcher_still.
Qed.

(** ** The title of the video *)

Lemma replace_absent s pat by_ :
  Str.includes s pat = false -> Str.replace s pat by_ = s.
Proof.
  induction s as [|c s IH]; cbn [Str.includes Str.replace].
  - destruct (Str.startsWith pat ""); [discriminate | reflexivity].
  - destruct (Str.startsWith pat (String c s)); [discriminate|].
    intros H. now rewrite IH.
Qed.

Lemma replace_first s pat by_ :
  Str.includes s pat = true ->
  exists a b,
    s = (a ++ pat ++ b)%string
    /\ Str.replace s pat by_ = (a ++ by_ ++ b)%string
    /\ forall a' b', s = (a' ++ pat ++ b')%string ->
                     String.length a <= String.length a'.
Proof.
  induction s as [|c s IH]; cbn [Str.includes Str.replace].
  - destruct (Str.startsWith pat "") as [r|] eqn:E; [|discriminate].
    intros _. apply startsWith_Some in E. exists EmptyString, r.
    repeat split; [exact E | simpl; lia].
  - destruct (Str.startsWith pat (String c s)) as [r|] eqn:E.
    + intros _. apply startsWith_Some in E. exists EmptyString, r.
      repeat split; [exact E | simpl; lia].
    + intros H. destruct (IH H) as (a & b & Hs & Hr & Hleft).
      exists (String c a), b. repeat split.
      * simpl. now rewrite <- Hs.
      * simpl. now rewrite Hr.
      * intros a' b' Hs'. destruct a' as [|c' a'].
        -- simpl in Hs'. apply startsWith_Some in Hs'.
           congruence.
        -- injection Hs' as _ Hs'. simpl. apply le_n_S.
           now apply (Hleft a' b').
Qed.

(** X19.  The title stored with the video of a successful analysis is the
    document title with its first " - YouTube" cut out, what stands before
    and after being kept; a document title without " - YouTube" is stored
    as it is. *)
Theorem analysis_title (URL_pathname : string -> Exc string) (now : Z)
  (w : Window) (d : Document) (url : string) (c : ChannelData) :
  analyzeYouTubePage URL_pathname now w d url
  = {| success := true; data := Some c; error := None |} ->
  exists v,
    videos c = [v]
    /\ (Str.includes (DOM.title d) " - YouTube" = false ->
        title v = DOM.title d)
    /\ (Str.includes (DOM.title d) " - YouTube" = true ->
        exists a b,
          DOM.title d = (a ++ " - YouTube" ++ b)%string
          /\ title v = (a ++ b)%string
          /\ forall a' b',
               DOM.title d = (a' ++ " - YouTube" ++ b')%string ->
               String.length a <= String.length a').
Proof.
  intros H. apply analyze_success in H as (videoId & channel & _ & ->).
  eexists. split; [reflexivity|]. cbn [title]. split.
  - apply replace_absent.
  - intros Hin. exact (replace_first _ _ "" Hin).
Qed.

Lemma analysis_title_witness :
  analyzeYouTubePage SimpleURL.pathname 7 Examples.emptyWindow
    Examples.fiveDocument Examples.watchUrl
  = {| success := true; data := Some Examples.analysed; error := None |}
  /\ exists v, videos Examples.analysed = [v].
Proof.
  assert (A : analyzeYouTubePage SimpleURL.pathname 7 Examples.emptyWindow
                Examples.fiveDocument Examples.watchUrl
              = {| success := true; data := Some Examples.analysed;
                   error := None |}) by (vm_compute; reflexivity).
  split; [exact A|].
  destruct (analysis_title SimpleURL.pathname 7 _ _ _ _ A) as (v & Hv & _).
  now exists v.
Defined.

(** ** Aggregator: an update of a like count *)

Lemma total_in_order vs :
  calculateTotalLikes vs = sumInOrder (map likeCount vs).
Proof.
  unfold calculateTotalLikes, sumInOrder. generalize zero.
  induction vs as [|v vs IH]; intros acc; [reflexivity|].
  simpl. apply IH.
Qed.

Lemma superseded_elsewhere new vs :
  ~ In (id new) (map id vs) -> map (supersededBy [new]) vs = vs.
Proof.
  induction vs as [|v vs IH]; simpl; intros H; [reflexivity|].
  rewrite IH by tauto. f_equal. unfold supersededBy. simpl.
  destruct (String.eqb (id new) (id v)) eqn:E; [|reflexivity].
  apply String.eqb_eq in E. exfalso. apply H. left. congruence.
Qed.

Lemma superseded_here new v :
  id v = id new -> supersededBy [new] v = new.
Proof.
  intros H. unfold supersededBy. simpl. rewrite H.
  now rewrite String.eqb_refl.
Qed.

(** C6.  When the incoming aggregate holds a record [new] whose id is that of
    a record [old] of the existing aggregate, with another like count
    ([new] being the record of the incoming list that stands last under its
    id, as every record of a list with unique ids does), the result of
    [mergeChannelData] holds exactly one record with that id, it is [new]
    with its like count, and [old] is gone.  Its [totalLikes] is the sum,
    in order, of the like counts of the other records and of the like count
    of [new]: the old count is no term of it.  When the existing ids are
    pairwise distinct and [new] is the only incoming record, [new] stands
    where [old] stood and [totalLikes] is the sum over the existing list
    with the count of [old] replaced by the count of [new]. *)
Theorem merge_replaces_same_id (e n : ChannelData) (now : Z)
  (old new : VideoData) :
  In old (videos e) ->
  LastOfItsId (videos n) new ->
  id old = id new ->
  likeCount old <> likeCount new ->
  List.filter (hasId (id new)) (videos (mergeChannelData e n now)) = [new]
  /\ ~ In old (videos (mergeChannelData e n now))
  /\ (exists before after,
        videos (mergeChannelData e n now) = before ++ new :: after
        /\ ~ In (id new) (map id before)
        /\ ~ In (id new) (map id after)
        /\ totalLikes (mergeChannelData e n now)
           = sumInOrder
               (map likeCount before ++ likeCount new :: map likeCount after))
  /\ (NoDup (map id (videos e)) ->
      videos n = [new] ->
      forall pre post,
        videos e = pre ++ old :: post ->
        videos (mergeChannelData e n now) = pre ++ new :: post
        /\ totalLikes (mergeChannelData e n now)
           = sumInOrder
               (map likeCount pre ++ likeCount new :: map likeCount post)).
Proof.
  intros _ Hlast Hid Hlikes.
  assert (T : totalLikes (mergeChannelData e n now)
              = sumInOrder
                  (map likeCount (videos (mergeChannelData e n now))))
    by apply total_in_order.
  assert (F : List.filter (hasId (id new)) (videos (mergeChannelData e n now))
              = [new]).
  { rewrite videos_merge.
    apply filter_hasId_present;
      auto using mergedMap_Keyed, mergedMap_NoDup, mergedMap_last. }
  split; [exact F|]. split; [|split].
  - intros Hin.
    assert (Hf : In old (List.filter (hasId (id new))
                           (videos (mergeChannelData e n now)))).
    { apply filter_In. split; [exact Hin|].
      unfold hasId. rewrite Hid. apply String.eqb_refl. }
    rewrite F in Hf. destruct Hf as [<-|[]]. now apply Hlikes.
  - assert (Hin : In new (videos (mergeChannelData e n now))).
    { assert (H : In new [new]) by now left.
      rewrite <- F in H. now apply filter_In in H. }
    apply in_split in Hin as (before & after & Hv).
    pose proof (merge_ids_NoDup e n now) as Hnd.
    rewrite Hv, map_app in Hnd. simpl in Hnd.
    apply NoDup_remove_2 in Hnd. rewrite in_app_iff in Hnd.
    exists before, after. repeat split; try tauto.
    rewrite T, Hv, map_app. reflexivity.
  - intros He Hn pre post Hev.
    assert (V : videos (mergeChannelData e n now) = pre ++ new :: post).
    { rewrite merge_order;
        [|exact He | rewrite Hn; repeat constructor; simpl; tauto].
      rewrite Hn, Hev in *. rewrite map_app in He. simpl in He.
      apply NoDup_remove_2 in He. rewrite in_app_iff in He.
      assert (Np : ~ In (id new) (map id pre)) by (rewrite <- Hid; tauto).
      assert (Nq : ~ In (id new) (map id post)) by (rewrite <- Hid; tauto).
      rewrite map_app. cbn [map].
      rewrite !superseded_elsewhere by assumption.
      rewrite superseded_here by exact Hid.
      cbn [List.filter]. unfold isNewTo.
      assert (E : existsb (String.eqb (id new))
                    (map id (pre ++ old :: post)) = true).
      { apply existsb_eqb_In. rewrite map_app, in_app_iff. simpl. auto. }
      rewrite E. cbn [negb]. now rewrite app_nil_r. }
    split; [exact V|]. rewrite T, V, map_app. reflexivity.
Qed.

Lemma merge_replaces_same_id_witness :
  (In (Examples.video "a" 10)
      (videos (Examples.channelOf "N"
                 [Examples.video "a" 10; Examples.video "b" 3]))
   /\ LastOfItsId (videos (Examples.channelOf "N" [Examples.video "a" 25]))
        (Examples.video "a" 25))
  /\ List.filter (hasId "a")
       (videos (mergeChannelData
                  (Examples.channelOf "N"
                     [Examples.video "a" 10; Examples.video "b" 3])
                  (Examples.channelOf "N" [Examples.video "a" 25]) 9))
     = [Examples.video "a" 25]
  /\ totalLikes
       (mergeChannelData
          (Examples.channelOf "N"
             [Examples.video "a" 10; Examples.video "b" 3])
          (Examples.channelOf "N" [Examples.video "a" 25]) 9)
     = sumInOrder [ofZ 25; ofZ 3].
Proof.
  assert (L : LastOfItsId
                (videos (Examples.channelOf "N" [Examples.video "a" 25]))
                (Examples.video "a" 25)).
  { exists [], []. split; [reflexivity | simpl; tauto]. }
  assert (A : In (Examples.video "a" 10)
                (videos (Examples.channelOf "N"
                           [Examples.video "a" 10; Examples.video "b" 3])))
    by (simpl; tauto).
  assert (D : likeCount (Examples.video "a" 10)
              <> likeCount (Examples.video "a" 25))
    by (vm_compute; discriminate).
  assert (U : NoDup (map id (videos (Examples.channelOf "N"
                [Examples.video "a" 10; Examples.video "b" 3]))))
    by (simpl; repeat constructor; simpl; intuition discriminate).
  destruct (merge_replaces_same_id
              (Examples.channelOf "N"
                 [Examples.video "a" 10; Examples.video "b" 3])
              (Examples.channelOf "N" [Examples.video "a" 25]) 9
              (Examples.video "a" 10) (Examples.video "a" 25)
              A L eq_refl D) as (F & _ & _ & R).
  split; [split; assumption|]. split; [exact F|].
  exact (proj2 (R U eq_refl [] [Examples.video "b" 3] eq_refl)).
Defined.

(** ** The recursive key search and the call stack *)






